(** * cp2/canvas.py: undo history, hit testing, scrolling and colour labels

    A shallow embedding of the canvas module of the colour picker and the
    properties its specification states about it.

    Python integers are [Z]; Python numbers that may be floats (pointer
    coordinates, scroll offsets, colour channels) are the rationals [Q] they
    denote, with exact arithmetic.  Where the digits of a result depend on
    how a product of doubles is rounded, in the colour label, the function
    is also given on the binary64 numbers themselves, in [Float64].  A call
    that can raise returns an
    [outcome]; a method that mutates its object is a function in the monad
    [M] over the state it mutates, so that the state at the moment of a raise
    is kept. *)

From Stdlib Require Import ZArith QArith Qround Bool List String Ascii Lia Lqa.
From Stdlib Require PrimFloat SpecFloat FloatOps FloatAxioms.
Import ListNotations.

Local Open Scope Z_scope.

(** ** Python layer *)

Module Py.

(** The exceptions the modelled code can raise; [Exception] stands for
    whatever a callback of the application raises. *)
Inductive exn : Type :=
| IndexError
| TypeError
| ZeroDivisionError
| Exception.

Inductive outcome (A : Type) : Type :=
| Return (a : A)
| Raise (e : exn).
Arguments Return {A} a.
Arguments Raise {A} e.

(** State and exception monad: a raise keeps the state reached so far. *)
Definition M (S A : Type) : Type := S -> outcome A * S.

Definition ret {S A : Type} (a : A) : M S A := fun s => (Return a, s).

Definition raise {S A : Type} (e : exn) : M S A := fun s => (Raise e, s).

Definition bind {S A B : Type} (c : M S A) (k : A -> M S B) : M S B :=
  fun s =>
    match c s with
    | (Return a, s') => k a s'
    | (Raise e, s') => (Raise e, s')
    end.

Definition get {S : Type} : M S S := fun s => (Return s, s).

Definition put {S : Type} (s : S) : M S unit := fun _ => (Return tt, s).

Definition lift {S A : Type} (o : outcome A) : M S A := fun s => (o, s).

Declare Scope py_scope.
Delimit Scope py_scope with py.
Notation "x <- c ;; k" := (bind c (fun x => k))
  (at level 61, c at next level, right associativity) : py_scope.
Notation "c ;; k" := (bind c (fun _ => k))
  (at level 61, right associativity) : py_scope.

(** [len(l)] *)
Definition len {A : Type} (l : list A) : Z := Z.of_nat (List.length l).

(** [l[i]]: a negative index counts from the end, anything outside
    [-len(l) .. len(l)-1] raises IndexError. *)
Definition getitem {A : Type} (l : list A) (i : Z) : outcome A :=
  let j := if i <? 0 then i + len l else i in
  if (0 <=? j) && (j <? len l) then
    match nth_error l (Z.to_nat j) with
    | Some x => Return x
    | None => Raise IndexError
    end
  else Raise IndexError.

(** [l[:k]]: a negative bound counts from the end, bounds are clipped. *)
Definition slice_to {A : Type} (l : list A) (k : Z) : list A :=
  let j := if k <? 0 then Z.max 0 (k + len l) else Z.min k (len l) in
  firstn (Z.to_nat j) l.

(** [bool(x)] for [x] either [None] or a list. *)
Definition truthy {A : Type} (x : option (list A)) : bool :=
  match x with
  | None => false
  | Some [] => false
  | Some (_ :: _) => true
  end.

End Py.

Import Py.
Local Open Scope py_scope.

(** ** UndoHistory *)

Section History.

(** An action is a callable with its arguments, [(callable, arg0, ...)].
    [call a] is the call of [item[0]] on the arguments [item[1:]]: it acts on the document and the
    toolkit, here [World], and may raise.  The history that replays the
    actions is not part of [World]. *)
Variable Action : Type.
Variable World : Type.
Variable call : Action -> M World unit.

(** [Canvas.reflect_transaction]: the window title carries a mark unless
    [history.is_saved()], the subtitle and the drawing area are refreshed.
    The toolkit calls are the canvas's collaborators; the argument is the
    value of [is_saved()] the method reads. *)
Variable reflect_transaction : bool -> World -> World.

(** [undo_actions] or [redo_actions]: [None] or a list of actions. *)
Definition actions : Type := option (list Action).

(** A transaction [(undo_actions, redo_actions)], and an entry of the
    undo stack, the two-element list [[undo_actions, redo_actions]]. *)
Definition transaction : Type := (actions * actions)%type.

Record UndoHistory : Type := mkUndoHistory {
  undo_stack : list transaction;
  index : Z;
  saved_index : Z
}.

Definition set_undo_stack (h : UndoHistory) (s : list transaction) :=
  mkUndoHistory s (index h) (saved_index h).

Definition set_index (h : UndoHistory) (i : Z) :=
  mkUndoHistory (undo_stack h) i (saved_index h).

(** [UndoHistory(canvas)]: the class attributes [index = 0] and
    [saved_index = 0], and the stack [[[None, None]]] of [__init__]. *)
Definition new_history : UndoHistory :=
  mkUndoHistory [(None, None)] 0 0.

Definition is_undo (h : UndoHistory) : bool := 0 <? index h.

Definition is_redo (h : UndoHistory) : outcome bool :=
  match getitem (undo_stack h) (index h) with
  | Return e => Return (truthy (snd e))
  | Raise x => Raise x
  end.

Definition is_saved (h : UndoHistory) : bool := index h =? saved_index h.

Definition set_saved (h : UndoHistory) : UndoHistory :=
  mkUndoHistory (undo_stack h) (index h) (index h).

(** The state the methods run in: the history and what the actions and the
    canvas act on. *)
Definition St : Type := (UndoHistory * World)%type.

Definition get_history : M St UndoHistory := fun s => (Return (fst s), s).

Definition put_history (h : UndoHistory) : M St unit :=
  fun s => (Return tt, (h, snd s)).

Definition in_world {A : Type} (c : M World A) : M St A :=
  fun s => let (o, w) := c (snd s) in (o, (fst s, w)).

(** [self.canvas.reflect_transaction()] *)
Definition canvas_reflect_transaction : M St unit :=
  fun s => (Return tt, (fst s, reflect_transaction (is_saved (fst s)) (snd s))).

(** [self.undo_stack[-1][1] = v]; IndexError on an empty stack. *)
Fixpoint set_last_redo (s : list transaction) (v : actions)
  : option (list transaction) :=
  match s with
  | [] => None
  | [e] => Some [(fst e, v)]
  | e :: r =>
      match set_last_redo r v with
      | Some r' => Some (e :: r')
      | None => None
      end
  end.

Definition add_transaction (t : transaction) : M St unit :=
  h <- get_history ;;
  (if index h <? len (undo_stack h) - 1
   then put_history (set_undo_stack h (slice_to (undo_stack h) (index h + 1)))
   else ret tt) ;;
  h <- get_history ;;
  match set_last_redo (undo_stack h) (snd t) with
  | None => raise IndexError
  | Some s =>
      put_history (set_undo_stack h s) ;;
      h <- get_history ;;
      put_history (set_undo_stack h (undo_stack h ++ [(fst t, None)])) ;;
      h <- get_history ;;
      put_history (set_index h (index h + 1)) ;;
      canvas_reflect_transaction
  end.

(** [for item in items:] call [item[0]] on [item[1:]]; iterating [None]
    raises TypeError. *)
Fixpoint for_each (items : list Action) : M St unit :=
  match items with
  | [] => ret tt
  | a :: r => in_world (call a) ;; for_each r
  end.

Definition replay (x : actions) : M St unit :=
  match x with
  | None => raise TypeError
  | Some items => for_each items
  end.

Definition undo : M St unit :=
  h <- get_history ;;
  if is_undo h then
    e <- lift (getitem (undo_stack h) (index h)) ;;
    replay (fst e) ;;
    h <- get_history ;;
    put_history (set_index h (index h - 1)) ;;
    canvas_reflect_transaction
  else ret tt.

Definition redo : M St unit :=
  h <- get_history ;;
  r <- lift (is_redo h) ;;
  if r then
    e <- lift (getitem (undo_stack h) (index h)) ;;
    replay (snd e) ;;
    h <- get_history ;;
    put_history (set_index h (index h + 1)) ;;
    canvas_reflect_transaction
  else ret tt.

(** [N] calls of [add_transaction], one per transaction of the list. *)
Fixpoint add_transactions (ts : list transaction) : M St unit :=
  match ts with
  | [] => ret tt
  | t :: r => add_transaction t ;; add_transactions r
  end.

(** [m] calls of [undo]. *)
Fixpoint undo_times (m : nat) : M St unit :=
  match m with
  | O => ret tt
  | S k => undo ;; undo_times k
  end.

(** [m] calls of [redo]. *)
Fixpoint redo_times (m : nat) : M St unit :=
  match m with
  | O => ret tt
  | S k => redo ;; redo_times k
  end.

(** The stack after [add_transaction] was called with each of [ts], from a
    tip whose undo actions are [u]: every entry carries the undo actions of
    the transaction before it and the redo actions of the one after. *)
Fixpoint stack_of (u : actions) (ts : list transaction) : list transaction :=
  match ts with
  | [] => [(u, None)]
  | t :: r => (u, snd t) :: stack_of (fst t) r
  end.

(** The actions of a list all return, from every state of the world. *)
Definition all_return (l : list Action) : Prop :=
  forall a w, In a l -> fst (call a w) = Return tt.

(** The class invariant: [index] points into the stack and the entry at the
    tip has no redo actions. *)
Definition tip_has_no_redo (h : UndoHistory) : Prop :=
  exists s u, undo_stack h = s ++ [(u, None)].

Definition history_inv (h : UndoHistory) : Prop :=
  0 <= index h <= len (undo_stack h) - 1 /\ tip_has_no_redo h.

(** One call of a method that mutates the history, from any state of the
    world, whether it returns or raises. *)
Inductive history_step (h h' : UndoHistory) : Prop :=
| step_add (t : transaction) (w w' : World) (o : outcome unit)
    (E : add_transaction t (h, w) = (o, (h', w')))
| step_undo (w w' : World) (o : outcome unit)
    (E : undo (h, w) = (o, (h', w')))
| step_redo (w w' : World) (o : outcome unit)
    (E : redo (h, w) = (o, (h', w')))
| step_set_saved (E : h' = set_saved h).

Inductive reachable : UndoHistory -> Prop :=
| reach_new : reachable new_history
| reach_step (h h' : UndoHistory) :
    reachable h -> history_step h h' -> reachable h'.

End History.

Arguments UndoHistory Action : clear implicits.
Arguments transaction Action : clear implicits.
Arguments actions Action : clear implicits.
Arguments St Action World : clear implicits.
Arguments mkUndoHistory {Action} undo_stack index saved_index.
Arguments undo_stack {Action} u.
Arguments index {Action} u.
Arguments saved_index {Action} u.
Arguments set_undo_stack {Action} h s.
Arguments set_index {Action} h i.
Arguments new_history {Action}.
Arguments is_undo {Action} h.
Arguments is_redo {Action} h.
Arguments is_saved {Action} h.
Arguments set_saved {Action} h.
Arguments set_last_redo {Action} s v.
Arguments tip_has_no_redo {Action} h.
Arguments history_inv {Action} h.
Arguments stack_of {Action} u ts.
Arguments all_return {Action World} call l.
Arguments add_transaction {Action World} reflect_transaction t.
Arguments undo {Action World} call reflect_transaction.
Arguments redo {Action World} call reflect_transaction.
Arguments for_each {Action World} call items.
Arguments replay {Action World} call x.
Arguments add_transactions {Action World} reflect_transaction ts.
Arguments undo_times {Action World} call reflect_transaction m.
Arguments redo_times {Action World} call reflect_transaction m.
Arguments history_step {Action World} call reflect_transaction h h'.
Arguments reachable {Action World} call reflect_transaction h.

(** ** Numbers *)

Local Open Scope Q_scope.

(** [x < y] on numbers. *)
Definition Qltb (x y : Q) : bool := negb (Qle_bool y x).

(** [a / b] on integers: true division, ZeroDivisionError when [b] is 0. *)
Definition truediv (a b : Z) : outcome Q :=
  if (b =? 0)%Z then Raise ZeroDivisionError
  else Return (inject_Z a / inject_Z b).

(** [a // b] on integers: floor division. *)
Definition floordiv (a b : Z) : outcome Z :=
  if (b =? 0)%Z then Raise ZeroDivisionError else Return (a / b)%Z.

(** [round(x)] with one argument: the nearest integer, a tie goes to the even
    one. *)
Definition py_round (x : Q) : Z :=
  let f := Qfloor x in
  match Qcompare (x - inject_Z f) (1 # 2) with
  | Lt => f
  | Gt => (f + 1)%Z
  | Eq => if Z.even f then f else (f + 1)%Z
  end.

(** [min(a, b)]: the first argument unless the second is smaller. *)
Definition py_min (a b : Q) : Q := if Qltb b a then b else a.

(** ** Geometry helpers *)

Definition bbox : Type := (Q * Q * Q * Q)%type.
Definition point : Type := (Q * Q)%type.

Definition NO_BBOX : bbox := (0, 0, 0, 0).

Definition in_bbox (b : bbox) (p : point) : bool :=
  let '(b0, b1, b2, b3) := b in
  let '(p0, p1) := p in
  (Qltb b0 p0 && Qltb p0 b2) && (Qltb b1 p1 && Qltb p1 b3).

(** ** Colour labels *)

Local Open Scope string_scope.

Definition hex_digit (d : Z) : ascii :=
  nth (Z.to_nat d)
    ["0"; "1"; "2"; "3"; "4"; "5"; "6"; "7";
     "8"; "9"; "a"; "b"; "c"; "d"; "e"; "f"]%char "0"%char.

Fixpoint hex_digits (fuel : nat) (n : Z) : string :=
  match fuel with
  | O => ""
  | S fuel' =>
      if (n <? 16)%Z then String (hex_digit n) ""
      else hex_digits fuel' (n / 16)%Z ++ String (hex_digit (n mod 16)%Z) ""
  end.

(** [hex(n)]: ["0x"] and the lowercase digits, ["-0x"] for a negative
    number.  A number below [16^k] has at most [k] digits and its binary
    logarithm is below [4k], so the fuel is never used up. *)
Definition hex (n : Z) : string :=
  (if (n <? 0)%Z then "-0x" else "0x")
  ++ hex_digits (S (Z.to_nat (Z.log2 (Z.abs n)))) (Z.abs n).

(** [s[2:]] *)
Definition from_2 (s : string) : string :=
  match s with
  | String _ (String _ r) => r
  | _ => ""
  end.

Definition upper_char (c : ascii) : ascii :=
  let n := nat_of_ascii c in
  if ((97 <=? n) && (n <=? 122))%nat then ascii_of_nat (n - 32) else c.

(** [s.upper()] on ASCII text. *)
Fixpoint upper (s : string) : string :=
  match s with
  | EmptyString => EmptyString
  | String c r => String (upper_char c) (upper r)
  end.

Fixpoint color_to_hex_loop (color : list Q) (hexcolor : string) : string :=
  match color with
  | [] => hexcolor
  | value :: rest =>
      let hexval := from_2 (hex (py_round (value * 255))) in
      let hexval :=
        if (String.length hexval <? 2)%nat then "0" ++ hexval else hexval in
      color_to_hex_loop rest (hexcolor ++ hexval)
  end.

Definition color_to_hex (color : list Q) : string :=
  upper (color_to_hex_loop color "#").

(** The label as the specification words it: every channel times 255,
    rounded, as two uppercase hexadecimal digits, after ["#"]. *)
Definition HEX_UPPER : list ascii :=
  ["0"; "1"; "2"; "3"; "4"; "5"; "6"; "7";
   "8"; "9"; "A"; "B"; "C"; "D"; "E"; "F"]%char.

Definition two_hex_digits (n : Z) : string :=
  String (nth (Z.to_nat (n / 16)) HEX_UPPER "0"%char)
    (String (nth (Z.to_nat (n mod 16)) HEX_UPPER "0"%char) "").

Definition spec_hex_label (color : list Q) : string :=
  "#" ++ fold_right (fun v rest => two_hex_digits (py_round (v * 255)) ++ rest)
           "" color.

Local Close Scope string_scope.

(** ** Colour labels on doubles *)

(** [color_to_hex] on the doubles Python computes with: the channels are
    binary64 numbers, [value * 255] is their product rounded to a double,
    and [round] takes that double to an integer. *)
Module Float64.

Import PrimFloat SpecFloat FloatOps.

(** The number a double stands for, read off its sign, mantissa and
    exponent; the infinities and NaN stand for none and are given 0. *)
Definition SF_value (x : spec_float) : Q :=
  match x with
  | S754_finite s m e =>
      let a := if (e <? 0)%Z then Z.pos m # Z.to_pos (2 ^ (- e))
               else inject_Z (Z.pos m * 2 ^ e) in
      if s then (- a)%Q else a
  | _ => 0%Q
  end.

Definition value (f : float) : Q := SF_value (Prim2SF f).

(** What [round] raises: OverflowError on an infinity, ValueError on NaN. *)
Inductive round_error : Type :=
| OverflowError
| ValueError.

Inductive result (A : Type) : Type :=
| Ok (a : A)
| Err (e : round_error).
Arguments Ok {A} a.
Arguments Err {A} e.

(** [round(x)] on a float: the integer nearest to the number the double
    stands for, a tie going to the even one. *)
Definition round (f : float) : result Z :=
  match Prim2SF f with
  | S754_nan => Err ValueError
  | S754_infinity _ => Err OverflowError
  | x => Ok (py_round (SF_value x))
  end.

Fixpoint color_to_hex_loop (color : list float) (hexcolor : string)
  : result string :=
  match color with
  | [] => Ok hexcolor
  | value :: rest =>
      match round (value * 255)%float with
      | Err e => Err e
      | Ok n =>
          let hexval := from_2 (hex n) in
          let hexval :=
            if (String.length hexval <? 2)%nat then ("0" ++ hexval)%string
            else hexval in
          color_to_hex_loop rest (hexcolor ++ hexval)%string
      end
  end.

Definition color_to_hex (color : list float) : result string :=
  match color_to_hex_loop color "#"%string with
  | Ok s => Ok (upper s)
  | Err e => Err e
  end.

(** The label as the specification words it, on doubles: each channel times
    255, the product Python computes, rounded to a nearest integer and
    written as two uppercase hexadecimal digits, after ["#"]. *)
Definition spec_hex_label (color : list float) : string :=
  ("#" ++ fold_right
            (fun v rest =>
               two_hex_digits (py_round (value (v * 255)%float)) ++ rest)
            "" color)%string.

(** A channel in [[0, 1]], compared as Python compares floats. *)
Definition in_unit_interval (v : float) : Prop :=
  (0 <=? v)%float = true /\ (v <=? 1)%float = true.

End Float64.

(** ** Canvas and its objects *)

(** The values of [cp2.config] the canvas module reads. *)
Record Config : Type := mkConfig {
  canvas_border : Z;
  cell_width : Z;
  cell_height : Z;
  scroll_hover : Z;
  scroll_normal : Z;
  scroll_fg : list Q;
  addbutton_fg : list Q;
  mouse_scroll_sensitivity : Q
}.

(** The attributes of [Canvas] that layout and scrolling use.  [colors] is
    [len(self.doc.model.colors)] and [refreshes] counts the calls of
    [self.dc.refresh()]. *)
Record Canvas : Type := mkCanvas {
  dy : Q;
  max_dy : Z;
  width : Z;
  height : Z;
  virtual_h : Z;
  cell_max : Z;
  colors : nat;
  refreshes : nat
}.

Definition set_dy (c : Canvas) (v : Q) : Canvas :=
  mkCanvas v (max_dy c) (width c) (height c) (virtual_h c) (cell_max c)
    (colors c) (refreshes c).

Definition set_max_dy (c : Canvas) (v : Z) : Canvas :=
  mkCanvas (dy c) v (width c) (height c) (virtual_h c) (cell_max c)
    (colors c) (refreshes c).

Definition set_size (c : Canvas) (w h : Z) : Canvas :=
  mkCanvas (dy c) (max_dy c) w h (virtual_h c) (cell_max c)
    (colors c) (refreshes c).

Definition set_virtual_h (c : Canvas) (v : Z) : Canvas :=
  mkCanvas (dy c) (max_dy c) (width c) (height c) v (cell_max c)
    (colors c) (refreshes c).

Definition set_cell_max (c : Canvas) (v : Z) : Canvas :=
  mkCanvas (dy c) (max_dy c) (width c) (height c) (virtual_h c) v
    (colors c) (refreshes c).

(** [self.dc.refresh()] *)
Definition refresh (c : Canvas) : Canvas :=
  mkCanvas (dy c) (max_dy c) (width c) (height c) (virtual_h c) (cell_max c)
    (colors c) (S (refreshes c)).

(** The class attributes of [Canvas], for a document of [n] colours. *)
Definition new_canvas (n : nat) : Canvas := mkCanvas 0 0 0 0 0 5 n 0.

(** [Canvas.on_scroll(event)], [scroll] being [event.get_scroll()]. *)
Definition on_scroll (cfg : Config) (scroll : Q) (c : Canvas) : Canvas :=
  let c := set_dy c (dy c + scroll * mouse_scroll_sensitivity cfg) in
  let c :=
    if Qltb (dy c) 0 || (virtual_h c <=? height c)%Z then set_dy c 0
    else if (height c <? virtual_h c)%Z
            && Qltb (inject_Z (virtual_h c - height c)) (dy c)
         then set_dy c (inject_Z (virtual_h c - height c))
         else c in
  refresh c.

(** The clamp of the specification, [x] brought into [[lo, hi]], and the
    upper bound it names, [max(0, virtual_h - height)]. *)
Definition clamp (lo hi x : Q) : Q :=
  if Qltb x lo then lo else if Qltb hi x then hi else x.

Definition scroll_bound (c : Canvas) : Q :=
  inject_Z (Z.max 0 (virtual_h c - height c)).

(** A run of scroll events, the first of the list first. *)
Definition scroll_all (cfg : Config) (scrolls : list Q) (c : Canvas) : Canvas :=
  fold_left (fun c s => on_scroll cfg s c) scrolls c.

(** [Canvas.paint] from its first line to the resize of the surface, with
    [size] the value of [self.dc.get_size()].  [round] of an integer is the
    integer, and [width] and [height] are [w] and [h] after the test on the
    surface whichever way it goes.  What follows in the source paints the
    objects of [z_order] on the surface and is reached only when this part
    returns. *)
Definition Canvas_paint (cfg : Config) (size : Z * Z) : M Canvas unit :=
  let (w, h) := size in
  let border := canvas_border cfg in
  let cell_h := cell_height cfg in
  c <- get ;;
  let cell_num := Z.of_nat (colors c) in
  m <- lift (floordiv (w - 2 * canvas_border cfg) (cell_width cfg)) ;;
  put (set_cell_max c m) ;;
  c <- get ;;
  q <- lift (truediv cell_num (cell_max c)) ;;
  put (set_virtual_h c (2 * border + Qceiling q * cell_h)%Z) ;;
  c <- get ;;
  let rounded := (virtual_h c - h)%Z in
  put (set_max_dy c (if (0 <? rounded)%Z then rounded else 0%Z)) ;;
  c <- get ;;
  put (set_dy c (py_min (dy c) (inject_Z (max_dy c)))) ;;
  c <- get ;;
  put (set_size c w h).

(** The calls on the cairo context, in the order they are made.
    [RoundedRect] is the path [draw_rounded_rect] traces. *)
Inductive draw : Type :=
| SetSourceRgb (color : list Q)
| SetSourceRgba (color : list Q)
| Rectangle (x y w h : Q)
| Fill
| RoundedRect (x y w h radius : Q)
| SetLineWidth (w : Q)
| SetDash (dashes : list Q)
| SetLineCapRound
| MoveTo (x y : Q)
| LineTo (x y : Q)
| Stroke.

(** [ScrollObj]: the track [bbox], the thumb [tbbox], [coef], [active] and
    [hover]. *)
Record ScrollObj : Type := mkScrollObj {
  scroll_bbox : bbox;
  tbbox : bbox;
  coef : Q;
  active : bool;
  hover : bool
}.

(** The class attributes of [ScrollObj] and of [CanvasObj]. *)
Definition new_scroll : ScrollObj := mkScrollObj NO_BBOX NO_BBOX 1 true false.

(** [ScrollObj.paint(ctx)]: the state is the object and the calls made on
    [ctx] so far. *)
Definition ScrollObj_paint (cfg : Config) (cv : Canvas)
  : M (ScrollObj * list draw) unit :=
  fun st =>
    let (s, ctx) := st in
    let w := width cv in
    let h := height cv in
    let sw := if hover s then scroll_hover cfg else scroll_normal cfg in
    let track := (inject_Z (w - scroll_hover cfg), 0, inject_Z w, inject_Z h) in
    let vh := virtual_h cv in
    let s := mkScrollObj track NO_BBOX 1 (active s) (hover s) in
    if (h <? vh)%Z then
      match truediv h vh with
      | Raise e => (Raise e, (s, ctx))
      | Return k =>
          let rect_h := inject_Z h * k in
          let rect_w := inject_Z sw in
          let y := dy cv + dy cv * k in
          let ctx := ctx ++ [SetSourceRgba (scroll_fg cfg);
                             Rectangle (inject_Z w - rect_w) y (inject_Z w) rect_h;
                             Fill] in
          let thumb := (inject_Z w - rect_w, y, inject_Z w, y + rect_h) in
          (Return tt, (mkScrollObj track thumb k (h <? vh)%Z (hover s), ctx))
      end
    else
      (Return tt, (mkScrollObj track NO_BBOX 1 (h <? vh)%Z (hover s), ctx)).

(** The cell the add button is painted in: [(x_count, y_count)] of
    [AddButtonObj.paint]. *)
Definition add_button_cell (cv : Canvas) : Z * Z :=
  let cell_num := Z.of_nat (colors cv) in
  let cell_max := cell_max cv in
  let y_count := if (cell_max =? 0)%Z then 0%Z else (cell_num / cell_max)%Z in
  let x_count := (cell_num - cell_max * y_count)%Z in
  (x_count, y_count).

(** [AddButtonObj.paint(ctx)]: the new [bbox] and the calls on [ctx]. *)
Definition AddButtonObj_paint (cfg : Config) (cv : Canvas) : bbox * list draw :=
  let cell_h := cell_height cfg in
  let cell_w := cell_width cfg in
  let border := canvas_border cfg in
  let (x_count, y_count) := add_button_cell cv in
  let x := inject_Z (border + x_count * cell_w) in
  let y := inject_Z (border + y_count * cell_h) in
  let cw := inject_Z cell_w in
  let ch := inject_Z cell_h in
  let '(r0, r1, r2, r3) := (x + 10, y + 10, cw - 20, ch - 20) in
  let size := inject_Z (cell_h / 3) in
  ((r0, r1 - dy cv, r0 + r2, r1 + r3 - dy cv),
   [SetSourceRgb (addbutton_fg cfg);
    RoundedRect r0 r1 r2 r3 20;
    SetLineWidth 4; SetDash [15; 8]; Stroke;
    SetLineWidth 8; SetLineCapRound; SetDash [];
    MoveTo (x + cw / 2) (y + ch / 2 - size / 2);
    LineTo (x + cw / 2) (y + ch / 2 + size / 2);
    Stroke;
    MoveTo (x + cw / 2 - size / 2) (y + ch / 2);
    LineTo (x + cw / 2 + size / 2) (y + ch / 2);
    Stroke]).

Local Close Scope Q_scope.

(** ** The rest of the module: helpers, navigation, the scrollbar's
    handlers, the colour grid and the dispatch of pointer events *)

Local Open Scope Q_scope.

Definition rect2bbox (rect : Q * Q * Q * Q) : bbox :=
  let '(x, y, w, h) := rect in (x, y, x + w, y + h).

Definition CAIRO_WHITE : Q * Q * Q := (1, 1, 1).
Definition CAIRO_BLACK : Q * Q * Q := (0, 0, 0).

(** [max(a, b)]: the first argument unless the second is greater. *)
Definition py_max (a b : Q) : Q := if Qltb a b then b else a.

(** [a / b] and [a // b] when one of the numbers is a float. *)
Definition float_div (a b : Q) : outcome Q :=
  if Qeq_bool b 0 then Raise ZeroDivisionError else Return (a / b).

Definition float_floordiv (a b : Q) : outcome Q :=
  if Qeq_bool b 0 then Raise ZeroDivisionError
  else Return (inject_Z (Qfloor (a / b))).

(** *** Keyboard navigation of [Canvas] *)

Definition go_home (c : Canvas) : Canvas := refresh (set_dy c 0).

Definition go_end (c : Canvas) : Canvas :=
  refresh (set_dy c (inject_Z (max_dy c))).

Definition page_up (c : Canvas) : Canvas :=
  refresh (set_dy c (py_max 0 (dy c - inject_Z (height c)))).

Definition page_down (c : Canvas) : Canvas :=
  refresh (set_dy c (py_min (inject_Z (max_dy c))
                       (inject_Z (height c) + dy c))).

Definition scroll_up (cfg : Config) (c : Canvas) : Canvas :=
  refresh (set_dy c (py_max 0 (dy c - inject_Z (cell_height cfg / 2)))).

Definition scroll_down (cfg : Config) (c : Canvas) : Canvas :=
  refresh (set_dy c (py_min (inject_Z (max_dy c))
                       (inject_Z (cell_height cfg / 2) + dy c))).

(** The range the scroll offset is kept in. *)
Definition dy_in_range (c : Canvas) : Prop :=
  0 <= dy c /\ dy c <= inject_Z (max_dy c).

(** *** The handlers of [ScrollObj] *)

(** A [ScrollObj] with its [start], the point of the last press or drag
    step, [None] before the first. *)
Definition Scroll : Type := (ScrollObj * option point)%type.

(** [ScrollObj.on_left_pressed(event)], [p] being [event.get_point()]. *)
Definition ScrollObj_on_left_pressed (p : point) : M (Scroll * Canvas) bool :=
  fun st =>
    let '((s, _), cv) := st in
    let pressed := ((s, Some p), cv) in
    if negb (in_bbox (scroll_bbox s) p) then (Return false, pressed)
    else if in_bbox (tbbox s) p then (Return true, pressed)
    else
      let '(_, t1, _, t3) := tbbox s in
      match (if Qltb t3 (snd p)
             then float_div (snd p - t3 + t1) (coef s)
             else float_div (snd p) (coef s)) with
      | Raise e => (Raise e, pressed)
      | Return d => (Return true, ((s, Some p), refresh (set_dy cv d)))
      end.

(** [ScrollObj.on_move(event)] while the scrollbar is the pressed object:
    the thumb is dragged. *)
Definition ScrollObj_drag (p : point) : M (Scroll * Canvas) bool :=
  fun st =>
    let '((s, start), cv) := st in
    match start with
    | None => (Raise TypeError, st)
    | Some p0 =>
        match float_floordiv (snd p - snd p0) (coef s) with
        | Raise e => (Raise e, st)
        | Return q =>
            let d := dy cv + q in
            let d := if Qltb 0 d then d else 0 in
            let d := if Qltb d (inject_Z (max_dy cv)) then d
                     else inject_Z (max_dy cv) in
            (Return true, ((s, Some p), refresh (set_dy cv d)))
        end
    end.

(** *** [CanvasObj] *)

Module CanvasObj.

Local Open Scope string_scope.

Record t : Type := mk {
  bbox : Q * Q * Q * Q;
  cursor : string;
  active : bool;
  hover : bool
}.

Definition set_hover (o : t) (b : bool) : t :=
  mk (bbox o) (cursor o) (active o) b.

(** The class attributes. *)
Definition init : t := mk NO_BBOX "arrow" true false.

Definition is_over (o : t) (p : point) : bool := in_bbox (bbox o) p.

(** What the handlers reach through [self.canvas]: the canvas and the
    cursor its drawing area shows. *)
Definition Screen : Type := (Canvas * string)%type.

(** [CanvasObj.on_move(event)]: the value returned, the object and the
    screen after the call. *)
Definition on_move (p : point) (o : t) (scr : Screen) : bool * (t * Screen) :=
  if active o then
    if is_over o p then
      let scr := (fst scr, cursor o) in
      if negb (hover o)
      then (true, (set_hover o true, (refresh (fst scr), snd scr)))
      else (true, (o, scr))
    else
      if hover o
      then (false, (set_hover o false, (refresh (fst scr), snd scr)))
      else (false, (o, scr))
  else (false, (o, scr)).

(** [CanvasObj.on_left_pressed(event)] *)
Definition on_left_pressed (p : point) (o : t) : bool := is_over o p.

End CanvasObj.

(** [BackgroundObj.paint]: the box is the viewport; the calls that fill the
    surface with [config.canvas_bg] act on the context only. *)
Definition BackgroundObj_paint (cv : Canvas) (o : CanvasObj.t) : CanvasObj.t :=
  CanvasObj.mk (0, 0, inject_Z (width cv), inject_Z (height cv))
    (CanvasObj.cursor o) (CanvasObj.active o) (CanvasObj.hover o).

(** *** The objects of [Canvas.z_order] and the dispatch of events *)

(** An object of [z_order]: the scrollbar, which overrides [on_move] and
    [on_left_pressed], or an object that inherits them from [CanvasObj]. *)
Inductive zobj : Type :=
| Plain (o : CanvasObj.t)
| Scrollbar (s : Scroll).

(** The scrollbar seen through the attributes [CanvasObj] reads; its
    [cursor] is the inherited ["arrow"]. *)
Definition ScrollObj_as_obj (s : ScrollObj) : CanvasObj.t :=
  CanvasObj.mk (scroll_bbox s) "arrow" (active s) (hover s).

Definition ScrollObj_set_hover (s : ScrollObj) (b : bool) : ScrollObj :=
  mkScrollObj (scroll_bbox s) (tbbox s) (coef s) (active s) b.

Definition zobj_view (z : zobj) : CanvasObj.t :=
  match z with
  | Plain o => o
  | Scrollbar s => ScrollObj_as_obj (fst s)
  end.

Definition zobj_set_hover (z : zobj) (b : bool) : zobj :=
  match z with
  | Plain o => Plain (CanvasObj.set_hover o b)
  | Scrollbar s => Scrollbar (ScrollObj_set_hover (fst s) b, snd s)
  end.

(** [obj.on_move(event)] for an object that is not the pressed one: for the
    scrollbar too this is [CanvasObj.on_move]. *)
Definition zobj_on_move (p : point) (z : zobj) (scr : CanvasObj.Screen)
  : bool * (zobj * CanvasObj.Screen) :=
  let '(r, (o, scr')) := CanvasObj.on_move p (zobj_view z) scr in
  (r, (zobj_set_hover z (CanvasObj.hover o), scr')).

(** [for obj in self.z_order: if obj.on_move(event): break] *)
Fixpoint move_loop (p : point) (objs : list zobj) (scr : CanvasObj.Screen)
  : list zobj * CanvasObj.Screen :=
  match objs with
  | [] => ([], scr)
  | z :: rest =>
      let '(r, (z', scr')) := zobj_on_move p z scr in
      if r then (z' :: rest, scr')
      else let '(rest', scr'') := move_loop p rest scr' in (z' :: rest', scr'')
  end.

(** The canvas with its objects: [left_pressed] is the position in
    [z_order] of the pressed object, a reference in the source, so that a
    position outside the list does not occur there. *)
Record Stage : Type := mkStage {
  z_order : list zobj;
  left_pressed : option nat;
  screen : CanvasObj.Screen
}.

(** [list[i] = v] for a position inside the list. *)
Fixpoint list_set {A : Type} (l : list A) (i : nat) (v : A) : list A :=
  match l, i with
  | [], _ => []
  | _ :: r, O => v :: r
  | x :: r, S j => x :: list_set r j v
  end.

(** [Canvas.on_move(event)] *)
Definition Canvas_on_move (p : point) : M Stage unit :=
  fun st =>
    match left_pressed st with
    | Some i =>
        match nth_error (z_order st) i with
        | Some (Scrollbar s) =>
            let '(o, (s', cv)) := ScrollObj_drag p (s, fst (screen st)) in
            (match o with Return _ => Return tt | Raise e => Raise e end,
             mkStage (list_set (z_order st) i (Scrollbar s'))
               (left_pressed st) (cv, snd (screen st)))
        | Some (Plain o) =>
            let '(_, (o', scr)) := CanvasObj.on_move p o (screen st) in
            (Return tt,
             mkStage (list_set (z_order st) i (Plain o')) (left_pressed st) scr)
        | None => (Return tt, st)
        end
    | None =>
        let '(objs, scr) := move_loop p (z_order st) (screen st) in
        (Return tt, mkStage objs None scr)
    end.

(** [for obj in self.z_order:] of [Canvas.on_left_pressed], from the object
    at position [i]: the position of the object that took the press, if
    any.  [left_pressed] is [None] while the loop runs. *)
Fixpoint press_loop (p : point) (objs : list zobj) (i : nat) (cv : Canvas)
  : outcome (option nat) * (list zobj * Canvas) :=
  match objs with
  | [] => (Return None, ([], cv))
  | Plain o :: rest =>
      if CanvasObj.on_left_pressed p o
      then (Return (Some i), (Plain o :: rest, cv))
      else
        let '(r, (rest', cv')) := press_loop p rest (S i) cv in
        (r, (Plain o :: rest', cv'))
  | Scrollbar s :: rest =>
      match ScrollObj_on_left_pressed p (s, cv) with
      | (Raise e, (s', cv')) => (Raise e, (Scrollbar s' :: rest, cv'))
      | (Return true, (s', cv')) =>
          (Return (Some i), (Scrollbar s' :: rest, cv'))
      | (Return false, (s', cv')) =>
          let '(r, (rest', cv'')) := press_loop p rest (S i) cv' in
          (r, (Scrollbar s' :: rest', cv''))
      end
  end.

(** [Canvas.on_left_pressed(event)]; with no object at all [left_pressed]
    is not touched. *)
Definition Canvas_on_left_pressed (p : point) : M Stage unit :=
  fun st =>
    match z_order st with
    | [] => (Return tt, st)
    | _ =>
        let '(r, (objs, cv)) :=
          press_loop p (z_order st) 0 (fst (screen st)) in
        match r with
        | Return lp => (Return tt, mkStage objs lp (cv, snd (screen st)))
        | Raise e => (Raise e, mkStage objs None (cv, snd (screen st)))
        end
    end.

(** The position of the first object whose box has the point strictly
    inside, and of the first such object that is also active. *)
Fixpoint first_over (p : point) (objs : list zobj) : option nat :=
  match objs with
  | [] => None
  | z :: rest =>
      if CanvasObj.is_over (zobj_view z) p then Some O
      else option_map S (first_over p rest)
  end.

Fixpoint first_hit (p : point) (objs : list zobj) : option nat :=
  match objs with
  | [] => None
  | z :: rest =>
      if CanvasObj.active (zobj_view z) && CanvasObj.is_over (zobj_view z) p
      then Some O
      else option_map S (first_hit p rest)
  end.

(** An object takes a move event when it is active and the point is inside
    its box; one that does not, if active, is left without [hover]. *)
Definition is_hit (p : point) (z : zobj) : bool :=
  CanvasObj.active (zobj_view z) && CanvasObj.is_over (zobj_view z) p.

Definition leave (z : zobj) : zobj :=
  if CanvasObj.active (zobj_view z) then zobj_set_hover z false else z.

(** A scrollbar whose [coef] is not 0, as after a paint with a viewport the
    pointer can be in; any other object. *)
Definition can_divide (z : zobj) : Prop :=
  match z with
  | Plain _ => True
  | Scrollbar s => Qeq_bool (coef (fst s)) 0 = false
  end.

(** *** Text colour and the colour grid *)

Section Rendering.

(** [colorsys.rgb_to_hsv] of the Python library, the colour management and
    the text measurement of cairo (by font size and text, giving width and
    height) are the collaborators of the drawing code;
    [cell_border_color] is the value of [config.cell_border_color]. *)
Variable colorsys_rgb_to_hsv : Q -> Q -> Q -> Q * Q * Q.
Variable Item : Type.
Variable get_display_color : Item -> Q * Q * Q.
Variable get_color_name : Item -> string.
Variable text_extents : Q -> string -> Q * Q.
Variable cell_border_color : list Q.

Definition rgb_to_hsv (color : Q * Q * Q) : Q * Q * Q :=
  let '(r, g, b) := color in
  let '(h, s, v) := colorsys_rgb_to_hsv r g b in
  (h * 360, s * 100, v * 100).

Definition text_color (color : Q * Q * Q) : Q * Q * Q :=
  let '(h, s, v) := rgb_to_hsv color in
  if Qltb v 55 then CAIRO_WHITE
  else if Qltb 80 s && (Qltb 210 h || Qltb h 20) then CAIRO_WHITE
  else CAIRO_BLACK.

Definition check_brightness (color : Q * Q * Q) : bool :=
  let '(h, s, v) := rgb_to_hsv color in
  Qltb s 10 && Qltb 90 v.

(** The calls on the cairo context of the grid, which also writes text. *)
Inductive cairo : Type :=
| Draw (d : draw)
| SetFontSize (size : Q)
| ShowText (text : string).

Definition channels (color : Q * Q * Q) : list Q :=
  let '(r, g, b) := color in [r; g; b].

(** The body of the loop of [ColorGrid.paint] up to the update of the
    counters: the calls that draw [item] in column [x_count] of row
    [y_count]. *)
Definition ColorGrid_cell (cfg : Config) (item : Item) (x_count y_count : Z)
  : list cairo :=
  let border := canvas_border cfg in
  let cell_h := cell_height cfg in
  let cell_w := cell_width cfg in
  let cw := inject_Z cell_w in
  let ch := inject_Z cell_h in
  let color := get_display_color item in
  let color_name := get_color_name item in
  let x := inject_Z (border + x_count * cell_w) in
  let y := inject_Z (border + y_count * cell_h) in
  let label := color_to_hex (channels color) in
  let ext := text_extents 15 label in
  let ext_name := text_extents 10 color_name in
  [Draw (SetSourceRgb (channels color));
   Draw (RoundedRect (x + 2) (y + 2) (cw - 4) (ch - 4) 20);
   Draw Fill]
  ++ (if check_brightness color
      then [Draw (SetSourceRgb cell_border_color);
            Draw (RoundedRect (x + 3) (y + 3) (cw - 6) (ch - 6) 20);
            Draw (SetLineWidth 1);
            Draw (SetDash []);
            Draw Stroke]
      else [])
  ++ [SetFontSize 15;
      Draw (MoveTo (x + cw / 2 - fst ext / 2) (y + ch / 2 + snd ext / 2));
      Draw (SetSourceRgb (channels (text_color color)));
      ShowText label;
      SetFontSize 10;
      Draw (MoveTo (x + cw / 2 - fst ext_name / 2)
              (y + ch / (3 # 2) + snd ext_name / 2));
      ShowText color_name].

(** The loop of [ColorGrid.paint]: the counters when it ends and the calls
    made. *)
Fixpoint ColorGrid_loop (cfg : Config) (cell_max : Z) (items : list Item)
    (x_count y_count : Z) (ctx : list cairo) : Z * Z * list cairo :=
  match items with
  | [] => (x_count, y_count, ctx)
  | item :: rest =>
      let ctx := ctx ++ ColorGrid_cell cfg item x_count y_count in
      let x_count := (x_count + 1)%Z in
      if (x_count =? cell_max)%Z
      then ColorGrid_loop cfg cell_max rest 0%Z (y_count + 1)%Z ctx
      else ColorGrid_loop cfg cell_max rest x_count y_count ctx
  end.

(** [ColorGrid.paint(ctx)] for the colours [items] of the document. *)
Definition ColorGrid_paint (cfg : Config) (cv : Canvas) (items : list Item)
    (ctx : list cairo) : Z * Z * list cairo :=
  ColorGrid_loop cfg (cell_max cv) items 0%Z 0%Z ctx.

(** The calls for the colours of a list, the first in cell [i] counted along
    the rows of [m] cells. *)
Fixpoint row_major (cfg : Config) (m : Z) (items : list Item) (i : Z)
  : list cairo :=
  match items with
  | [] => []
  | item :: rest =>
      ColorGrid_cell cfg item (i mod m)%Z (i / m)%Z
      ++ row_major cfg m rest (i + 1)%Z
  end.

End Rendering.

Arguments ColorGrid_cell colorsys_rgb_to_hsv {Item} get_display_color
  get_color_name text_extents cell_border_color cfg item x_count y_count.
Arguments ColorGrid_loop colorsys_rgb_to_hsv {Item} get_display_color
  get_color_name text_extents cell_border_color cfg cell_max items
  x_count y_count ctx.
Arguments ColorGrid_paint colorsys_rgb_to_hsv {Item} get_display_color
  get_color_name text_extents cell_border_color cfg cv items ctx.
Arguments row_major colorsys_rgb_to_hsv {Item} get_display_color
  get_color_name text_extents cell_border_color cfg m items i.

Local Close Scope Q_scope.

(** ** A small document to run the history on *)

Module Demo.

(** The world is a palette, a list of colour numbers, and the mark of the
    window title; the actions append a colour, drop the last one, or fail. *)
Inductive action : Type :=
| Append (c : nat)
| DropLast
| Fail.

Definition world : Type := (list nat * bool)%type.

Definition call (a : action) : M world unit :=
  fun w =>
    match a with
    | Append c => (Return tt, (fst w ++ [c], snd w))
    | DropLast => (Return tt, (removelast (fst w), snd w))
    | Fail => (Raise Exception, w)
    end.

Definition reflect_transaction (saved : bool) (w : world) : world :=
  (fst w, negb saved).

Definition empty : world := ([], false).

(** Adding colour [c]: undone by dropping it, redone by appending it. *)
Definition add_color (c : nat) : transaction action :=
  (Some [DropLast], Some [Append c]).

(** The history after one colour was added to an empty palette, and the
    world then. *)
Definition one_color : UndoHistory action :=
  mkUndoHistory [(None, Some [Append 7%nat]); (Some [DropLast], None)] 1 0.

Definition one_color_world : world := ([7%nat], true).

(** A transaction that cannot be redone: its list of redo actions is
    empty. *)
Definition no_redo : transaction action := (Some [DropLast], Some []).

(** A palette of grey levels to paint: colour [n] is the grey [n/10]. *)
Definition hsv (r g b : Q) : Q * Q * Q := (0, 0, r)%Q.

Definition display_color (n : nat) : Q * Q * Q :=
  (inject_Z (Z.of_nat n) / 10, inject_Z (Z.of_nat n) / 10,
   inject_Z (Z.of_nat n) / 10)%Q.

Definition color_name (n : nat) : string := "grey"%string.

Definition extents (size : Q) (text : string) : Q * Q :=
  (size * inject_Z (Z.of_nat (String.length text)) / 2, size)%Q.

(** Three objects on a viewport of 400 by 300: a button, an object that is
    not active, and the background. *)
Definition button : CanvasObj.t :=
  CanvasObj.mk (20, 20, 70, 60)%Q "pointer" true false.

Definition stale_logo : CanvasObj.t :=
  CanvasObj.mk (200, 200, 300, 280)%Q "pointer" false false.

Definition background : CanvasObj.t :=
  CanvasObj.mk (0, 0, 400, 300)%Q "arrow" true true.

Definition objects : list zobj :=
  [Plain stale_logo; Plain button; Plain background].

Definition viewport : Canvas := mkCanvas 0 0 400 300 0 5 0 0.

End Demo.

(** * Properties *)

(** ** Python lists *)

Lemma len_app {A : Type} (l l' : list A) : len (l ++ l') = len l + len l'.
Proof. unfold len. rewrite length_app. lia. Qed.

Lemma len_nonneg {A : Type} (l : list A) : 0 <= len l.
Proof. unfold len. lia. Qed.

Lemma getitem_nth {A : Type} (l : list A) (i : Z) (x : A) :
  0 <= i -> nth_error l (Z.to_nat i) = Some x -> getitem l i = Return x.
Proof.
  intros Hi Hn. unfold getitem.
  assert (Hlt : (Z.to_nat i < List.length l)%nat)
    by (apply nth_error_Some; congruence).
  destruct (i <? 0) eqn:Hneg; [lia|].
  replace ((0 <=? i) && (i <? len l)) with true
    by (symmetry; apply andb_true_iff; unfold len; lia).
  now rewrite Hn.
Qed.

Lemma getitem_tip {A : Type} (s : list A) (e : A) :
  getitem (s ++ [e]) (len s) = Return e.
Proof.
  apply getitem_nth; [apply len_nonneg|].
  unfold len. rewrite Nat2Z.id, nth_error_app2, Nat.sub_diag by lia.
  reflexivity.
Qed.

Lemma slice_to_firstn {A : Type} (l : list A) (k : Z) :
  0 <= k -> slice_to l k = firstn (Z.to_nat k) l.
Proof.
  intros Hk. unfold slice_to. destruct (k <? 0) eqn:Hneg; [lia|].
  destruct (Z.min_spec k (len l)) as [[Hlt ->]|[Hge ->]]; [reflexivity|].
  unfold len in *. rewrite Nat2Z.id, firstn_all.
  symmetry. apply firstn_all2. lia.
Qed.

(** ** UndoHistory *)

Section HistoryFacts.

Context {Action World : Type}.
Variable call : Action -> M World unit.
Variable reflect_transaction : bool -> World -> World.

Local Abbreviation history := (UndoHistory Action).
Local Abbreviation do_add := (add_transaction reflect_transaction).
Local Abbreviation do_undo := (undo call reflect_transaction).
Local Abbreviation do_redo := (redo call reflect_transaction).
Local Abbreviation do_adds := (add_transactions reflect_transaction).
Local Abbreviation do_undos := (undo_times call reflect_transaction).

Lemma set_last_redo_app (s : list (transaction Action)) e v :
  set_last_redo (s ++ [e]) v = Some (s ++ [(fst e, v)]).
Proof.
  induction s as [|a s IH]; [reflexivity|].
  simpl. rewrite IH. destruct (s ++ [e]) eqn:E; [|reflexivity].
  now destruct s.
Qed.

(** What [add_transaction] does, in one step. *)
Lemma add_transaction_run (t : transaction Action) (h : history) (w : World) :
  let s0 := if index h <? len (undo_stack h) - 1
            then slice_to (undo_stack h) (index h + 1)
            else undo_stack h in
  do_add t (h, w) =
  match set_last_redo s0 (snd t) with
  | None => (Raise IndexError, (set_undo_stack h s0, w))
  | Some s =>
      let h' := mkUndoHistory (s ++ [(fst t, None)]) (index h + 1)
                  (saved_index h) in
      (Return tt, (h', reflect_transaction (is_saved h') w))
  end.
Proof.
  destruct h as [s i sv]. unfold add_transaction, bind, get_history,
    put_history, ret, raise, canvas_reflect_transaction. simpl.
  destruct (i <? len s - 1); simpl;
    match goal with |- context [set_last_redo ?x ?y] =>
      destruct (set_last_redo x y) end; reflexivity.
Qed.

Lemma firstn_tip (h : history) :
  history_inv h ->
  exists s u, firstn (Z.to_nat (index h + 1)) (undo_stack h) = s ++ [u]
              /\ len s = index h.
Proof.
  intros [Hi _]. unfold len in *.
  assert (Hl : List.length (firstn (Z.to_nat (index h + 1)) (undo_stack h))
               = Z.to_nat (index h + 1))
    by (rewrite length_firstn; lia).
  destruct (firstn (Z.to_nat (index h + 1)) (undo_stack h)) as [|a r] eqn:E.
  - simpl in Hl. lia.
  - destruct (@exists_last _ (a :: r)) as (s & u & Hs); [discriminate|].
    exists s, u. split; [assumption|].
    rewrite Hs, length_app in Hl. simpl in Hl. lia.
Qed.

(** [add_transaction] on a history that satisfies the invariant: the stack
    is cut after [index], the entry at [index] takes the redo actions, the
    new entry is pushed and [index] moves to it. *)
Lemma add_transaction_inv (t : transaction Action) (h : history) (w : World) :
  history_inv h ->
  exists s u,
    firstn (Z.to_nat (index h + 1)) (undo_stack h) = s ++ [u]
    /\ len s = index h
    /\ do_add t (h, w) =
       let h' := mkUndoHistory (s ++ [(fst u, snd t); (fst t, None)])
                   (index h + 1) (saved_index h) in
       (Return tt, (h', reflect_transaction (is_saved h') w)).
Proof.
  intros Hinv. destruct (firstn_tip h Hinv) as (s & u & Hs & Hl).
  exists s, u. split; [assumption|]. split; [assumption|].
  rewrite add_transaction_run. cbv zeta.
  assert (E : (if index h <? len (undo_stack h) - 1
               then slice_to (undo_stack h) (index h + 1)
               else undo_stack h) = s ++ [u]).
  { destruct Hinv as [Hi _].
    destruct (index h <? len (undo_stack h) - 1) eqn:Hlt.
    - rewrite slice_to_firstn by lia. assumption.
    - rewrite <- Hs. symmetry. apply firstn_all2. unfold len in *. lia. }
  rewrite E, set_last_redo_app, <- app_assoc. reflexivity.
Qed.

Lemma add_transaction_preserves (t : transaction Action) (h h' : history)
    (w w' : World) (o : outcome unit) :
  history_inv h -> do_add t (h, w) = (o, (h', w')) -> history_inv h'.
Proof.
  intros Hinv E. destruct (add_transaction_inv t h w Hinv) as (s & u & _ & Hl & R).
  rewrite R in E. cbv zeta in E. injection E as _ <- _.
  split; simpl.
  - rewrite len_app. unfold len in *. simpl. lia.
  - exists (s ++ [(fst u, snd t)]), (fst t). now rewrite <- app_assoc.
Qed.

(** Replaying actions leaves the history as it is. *)
Lemma for_each_history (l : list Action) (h h' : history) (w w' : World)
    (o : outcome unit) :
  for_each call l (h, w) = (o, (h', w')) -> h' = h.
Proof.
  revert w. induction l as [|a l IH]; intros w E.
  - now inversion E.
  - simpl in E. unfold bind, in_world in E. simpl in E.
    destruct (call a w) as [[[]|e] w1].
    + exact (IH _ E).
    + now inversion E.
Qed.

Lemma replay_history (x : actions Action) (h h' : history) (w w' : World)
    (o : outcome unit) :
  replay call x (h, w) = (o, (h', w')) -> h' = h.
Proof.
  destruct x as [l|]; simpl.
  - apply for_each_history.
  - unfold raise. now inversion 1.
Qed.

Lemma undo_cases (h h' : history) (w w' : World) (o : outcome unit) :
  do_undo (h, w) = (o, (h', w')) ->
  h' = h
  \/ (is_undo h = true /\ o = Return tt /\ h' = set_index h (index h - 1)).
Proof.
  unfold undo, bind, get_history, lift, put_history,
    canvas_reflect_transaction, ret. simpl.
  destruct (is_undo h); [|left; congruence].
  destruct (getitem (undo_stack h) (index h)) as [e|x]; [|left; congruence].
  destruct (replay call (fst e) (h, w)) as [[[]|x] [h1 w1]] eqn:R;
    apply replay_history in R; subst h1; simpl; intros E.
  - right. repeat split; congruence.
  - left. congruence.
Qed.

Lemma redo_cases (h h' : history) (w w' : World) (o : outcome unit) :
  do_redo (h, w) = (o, (h', w')) ->
  h' = h
  \/ (is_redo h = Return true /\ o = Return tt
      /\ h' = set_index h (index h + 1)).
Proof.
  unfold redo, bind, get_history, lift, put_history,
    canvas_reflect_transaction, ret. simpl.
  destruct (is_redo h) as [[|]|x] eqn:R; [|left; congruence|left; congruence].
  destruct (getitem (undo_stack h) (index h)) as [e|x]; [|left; congruence].
  destruct (replay call (snd e) (h, w)) as [[[]|x] [h1 w1]] eqn:P;
    apply replay_history in P; subst h1; simpl; intros E.
  - right. repeat split; congruence.
  - left. congruence.
Qed.

(** At the tip [is_redo()] is false: the entry has no redo actions. *)
Lemma is_redo_at_tip (h : history) :
  tip_has_no_redo h -> index h = len (undo_stack h) - 1 ->
  is_redo h = Return false.
Proof.
  intros (s & u & Hs) Hi. unfold is_redo.
  rewrite Hs in Hi |- *. rewrite len_app in Hi.
  assert (Hx : index h = len s)
    by (unfold len, transaction, actions in Hi |- *;
        simpl List.length in Hi; lia).
  rewrite Hx.
  now rewrite getitem_tip.
Qed.

Lemma history_step_preserves (h h' : history) :
  history_inv h -> history_step call reflect_transaction h h' ->
  history_inv h'.
Proof.
  intros Hinv [t w w' o E|w w' o E|w w' o E|E].
  - eapply add_transaction_preserves; eassumption.
  - destruct (undo_cases _ _ _ _ _ E) as [->|(Hu & _ & ->)]; [assumption|].
    destruct Hinv as [Hi Ht]. unfold is_undo in Hu.
    split; [simpl; lia|exact Ht].
  - destruct (redo_cases _ _ _ _ _ E) as [->|(Hr & _ & ->)]; [assumption|].
    destruct Hinv as [Hi Ht].
    split; [simpl|exact Ht].
    destruct (Z.eq_dec (index h) (len (undo_stack h) - 1)) as [Heq|Hne];
      [|lia].
    rewrite (is_redo_at_tip h Ht Heq) in Hr. discriminate.
  - subst h'. exact Hinv.
Qed.

(** C9: every history reached from a new one by calls of [add_transaction],
    [undo], [redo] and [set_saved], returning or raising, has
    [0 <= index <= len(undo_stack) - 1] and no redo actions in the last
    entry of the stack. *)
Theorem history_inv_reachable (h : history) :
  reachable call reflect_transaction h -> history_inv h.
Proof.
  induction 1 as [|h h' _ IH Hstep].
  - split; [unfold len; simpl; lia|]. now exists [], None.
  - exact (history_step_preserves h h' IH Hstep).
Qed.

(** C3: a new history has [saved_index] 0, the class attribute, and not the
    -1 of the comment above the class, so [is_saved()] is true on it. *)
Theorem new_history_is_saved :
  saved_index (@new_history Action) = 0
  /\ is_saved (@new_history Action) = true.
Proof. split; reflexivity. Qed.

Lemma getitem_app_head {A : Type} (s r : list A) (e : A) :
  getitem (s ++ e :: r) (len s) = Return e.
Proof.
  apply getitem_nth; [apply len_nonneg|].
  unfold len. rewrite Nat2Z.id, nth_error_app2, Nat.sub_diag by lia.
  reflexivity.
Qed.

Lemma for_each_all_return (l : list Action) (h : history) (w : World) :
  all_return call l ->
  exists w', for_each call l (h, w) = (Return tt, (h, w')).
Proof.
  revert w. induction l as [|a l IH]; intros w Hl.
  - now exists w.
  - simpl. unfold bind, in_world. simpl.
    pose proof (Hl a w (or_introl eq_refl)) as Ha.
    destruct (call a w) as [o w1]. simpl in Ha. subst o.
    apply IH. intros b v Hb. apply Hl. now right.
Qed.

(** [undo] when the entry at [index] has a list of undo actions that all
    return: [index] moves back by one and the stack is kept. *)
Lemma undo_run (h : history) (w : World) e l :
  is_undo h = true ->
  getitem (undo_stack h) (index h) = Return e ->
  fst e = Some l -> all_return call l ->
  exists w', do_undo (h, w) = (Return tt, (set_index h (index h - 1), w')).
Proof.
  intros Hu Hg He Hl.
  destruct (for_each_all_return l h w Hl) as (w1 & R).
  unfold undo, bind, get_history, lift, put_history,
    canvas_reflect_transaction, ret. simpl.
  rewrite Hu, Hg, He. simpl. rewrite R. simpl. eauto.
Qed.

(** [redo] when [is_redo()] is false does nothing. *)
Lemma redo_noop (h : history) (w : World) :
  is_redo h = Return false -> do_redo (h, w) = (Return tt, (h, w)).
Proof.
  intros Hr. unfold redo, bind, get_history, lift. simpl. now rewrite Hr.
Qed.

(** C2: on a history that satisfies the class invariant and has something
    to undo, [undo()] followed by [add_transaction(t)] ends with
    [is_redo()] false, whatever the undo did; when the undo returned, the
    stack is the entries up to the one before the old [index], the last of
    them with the redo actions of [t], and the new tip: the entries from the
    old [index] on are dropped. *)
Theorem undo_then_add_discards_redo (h : history) (w : World)
    (t : transaction Action) :
  history_inv h -> is_undo h = true ->
  let '(o1, (h1, w1)) := do_undo (h, w) in
  let '(o2, (h2, _)) := do_add t (h1, w1) in
  o2 = Return tt
  /\ is_redo h2 = Return false
  /\ (o1 = Return tt ->
      index h2 = index h
      /\ len (undo_stack h2) = index h + 1
      /\ exists s u,
           firstn (Z.to_nat (index h)) (undo_stack h) = s ++ [u]
           /\ undo_stack h2 = s ++ [(fst u, snd t); (fst t, None)]).
Proof.
  intros Hinv Hu.
  destruct (do_undo (h, w)) as [o1 [h1 w1]] eqn:E1.
  assert (Hinv1 : history_inv h1)
    by (eapply history_step_preserves; [exact Hinv|eapply step_undo; exact E1]).
  destruct (add_transaction_inv t h1 w1 Hinv1) as (s & u & Hs & Hl & R).
  rewrite R. cbv zeta. split; [reflexivity|]. split.
  - apply is_redo_at_tip; simpl.
    + exists (s ++ [(fst u, snd t)]), (fst t). now rewrite <- app_assoc.
    + rewrite len_app. unfold len in *. simpl. lia.
  - intros ->. destruct (undo_cases _ _ _ _ _ E1) as [->|(_ & _ & ->)].
    + (* the undo returned without moving: excluded by [is_undo] *)
      unfold undo, bind, get_history, lift, put_history,
        canvas_reflect_transaction, ret in E1. simpl in E1.
      rewrite Hu in E1.
      destruct (getitem (undo_stack h) (index h)) as [e|x]; [|discriminate].
      destruct (replay call (fst e) (h, w)) as [[[]|x] [h' w']] eqn:P;
        [|discriminate].
      apply replay_history in P. subst h'. simpl in E1.
      injection E1 as E1 _. apply (f_equal index) in E1. simpl in E1. lia.
    + simpl in *. split; [lia|]. split.
      * rewrite len_app. unfold len in *. simpl. lia.
      * exists s, u. replace (index h) with (index h - 1 + 1) at 1 by lia.
        now split.
Qed.

(** C10: a transaction with an empty list of redo actions leaves nothing to
    redo: after [add_transaction((u, []))] and [undo()], on a history that
    satisfies the class invariant and with undo actions that return,
    [index] is back, [is_redo()] is false and [redo()] returns without
    changing the history or the world. *)
Theorem empty_redo_list_is_no_redo (h : history) (w : World)
    (u : list Action) :
  history_inv h -> all_return call u ->
  let '(o, (h', w')) := (do_add (Some u, Some []) ;; do_undo) (h, w) in
  o = Return tt
  /\ index h' = index h
  /\ is_redo h' = Return false
  /\ do_redo (h', w') = (Return tt, (h', w')).
Proof.
  intros Hinv Hu. unfold bind at 1.
  destruct (add_transaction_inv (Some u, Some []) h w Hinv)
    as (s & e & _ & Hl & R).
  rewrite R. cbv zeta. simpl fst. simpl snd.
  set (h1 := mkUndoHistory _ _ _).
  set (w1 := reflect_transaction _ _).
  assert (Hg : getitem (undo_stack h1) (index h1) = Return (Some u, None)).
  { subst h1. simpl. rewrite <- Hl.
    replace (len s + 1) with (len (s ++ [(fst e, Some (@nil Action))]))
      by (rewrite len_app; reflexivity).
    change (s ++ [(fst e, Some []); (Some u, None)])
      with (s ++ [(fst e, Some (@nil Action))] ++ [(Some u, None)]).
    rewrite app_assoc. apply getitem_tip. }
  assert (Hpos : is_undo h1 = true).
  { subst h1. unfold is_undo. simpl. destruct Hinv as [Hi _].
    apply Z.ltb_lt. lia. }
  destruct (undo_run h1 w1 _ u Hpos Hg eq_refl Hu) as (w2 & U).
  rewrite U.
  assert (Hr : is_redo (set_index h1 (index h1 - 1)) = Return false).
  { subst h1. unfold is_redo. simpl.
    replace (index h + 1 - 1) with (len s) by lia.
    now rewrite getitem_app_head. }
  split; [reflexivity|]. split; [subst h1; simpl; lia|].
  split; [exact Hr|]. now apply redo_noop.
Qed.

(** [N] calls of [add_transaction] from a tip: the stack grows by
    [stack_of] and [index] by [N]. *)
Lemma add_transactions_run (ts : list (transaction Action)) :
  forall (s : list (transaction Action)) (u : actions Action) (sv : Z)
         (w : World),
  exists w',
    do_adds ts (mkUndoHistory (s ++ [(u, None)]) (len s) sv, w)
    = (Return tt, (mkUndoHistory (s ++ stack_of u ts) (len s + len ts) sv, w')).
Proof.
  induction ts as [|t ts IH]; intros s u sv w.
  - exists w. simpl. unfold ret, len at 3. simpl. now rewrite Z.add_0_r.
  - simpl. unfold bind at 1. rewrite add_transaction_run. simpl.
    replace (len s <? len (s ++ [(u, None)]) - 1) with false
      by (symmetry; apply Z.ltb_ge; rewrite len_app; unfold len; simpl; lia).
    rewrite set_last_redo_app. simpl.
    replace (len s + 1) with (len (s ++ [(u, snd t)]))
      by (rewrite len_app; reflexivity).
    destruct (IH (s ++ [(u, snd t)]) (fst t) sv
                (reflect_transaction
                   (is_saved (mkUndoHistory
                                ((s ++ [(u, snd t)]) ++ [(fst t, None)])
                                (len (s ++ [(u, snd t)])) sv)) w))
      as (w' & R).
    exists w'. rewrite R. rewrite <- app_assoc. simpl.
    do 3 f_equal. rewrite len_app. unfold len. simpl List.length. lia.
Qed.

Lemma length_stack_of (ts : list (transaction Action)) (u : actions Action) :
  List.length (stack_of u ts) = S (List.length ts).
Proof. revert u. induction ts; intros u; simpl; [|rewrite IHts]; reflexivity. Qed.

(** Entry [j+1] carries the undo actions of transaction [j]. *)
Lemma stack_of_undo (ts : list (transaction Action)) :
  forall (u : actions Action) (j : nat) (t : transaction Action),
  nth_error ts j = Some t ->
  exists r, nth_error (stack_of u ts) (S j) = Some (fst t, r).
Proof.
  induction ts as [|t0 ts IH]; intros u j t Hj; [now destruct j|].
  destruct j as [|j]; simpl in Hj.
  - injection Hj as ->. simpl. destruct ts; simpl; eauto.
  - simpl. apply (IH (fst t0) j t Hj).
Qed.

(** Entry [j] carries the redo actions of transaction [j], and the tip
    none. *)
Lemma stack_of_redo (ts : list (transaction Action)) :
  forall (u : actions Action) (j : nat),
  exists v, nth_error (stack_of u ts) j
            = match nth_error ts j with
              | Some t => Some (v, snd t)
              | None => if (j =? List.length ts)%nat then Some (v, None)
                        else None
              end.
Proof.
  induction ts as [|t0 ts IH]; intros u j.
  - destruct j as [|j]; simpl; [now exists u|exists u; now destruct j].
  - destruct j as [|j]; simpl; [now exists u|]. apply IH.
Qed.

(** [m] calls of [undo] on the stack of [ts], from [index] [k]. *)
Lemma undo_times_run (ts : list (transaction Action)) (sv : Z) (m : nat) :
  (forall t, In t ts -> exists l, fst t = Some l /\ all_return call l) ->
  forall (k : nat) (w : World),
  (m <= k <= List.length ts)%nat ->
  exists w',
    do_undos m (mkUndoHistory (stack_of None ts) (Z.of_nat k) sv, w)
    = (Return tt,
       (mkUndoHistory (stack_of None ts) (Z.of_nat k - Z.of_nat m) sv, w')).
Proof.
  intros Hts. induction m as [|m IH]; intros k w Hk.
  - exists w. simpl. unfold ret. now rewrite Z.sub_0_r.
  - destruct k as [|k]; [lia|].
    destruct (nth_error ts k) as [t|] eqn:Ht;
      [|apply nth_error_None in Ht; lia].
    destruct (Hts t (nth_error_In _ _ Ht)) as (l & Hl & Hret).
    destruct (stack_of_undo ts None k t Ht) as (r & Hn).
    set (h := mkUndoHistory (stack_of None ts) (Z.of_nat (S k)) sv).
    assert (Hg : getitem (undo_stack h) (index h) = Return (fst t, r)).
    { apply getitem_nth; unfold h; cbn [undo_stack index]; [lia|].
      now rewrite Nat2Z.id. }
    assert (Hu : is_undo h = true)
      by (apply Z.ltb_lt; unfold h; cbn [index]; lia).
    destruct (undo_run h w _ l Hu Hg Hl Hret) as (w1 & U).
    cbn [undo_times]. unfold bind at 1. rewrite U.
    destruct (IH k w1 ltac:(lia)) as (w' & R).
    exists w'. unfold set_index, h. cbn [undo_stack index saved_index].
    replace (Z.of_nat (S k) - 1) with (Z.of_nat k) by lia.
    rewrite R. do 3 f_equal. lia.
Qed.

(** C1, amended: [N] calls of [add_transaction] on a new history, with
    transactions whose undo actions are lists of actions that return, and
    then [M <= N] calls of [undo], all return; afterwards [index] is
    [N - M], and [is_redo()] is true exactly when [M > 0] and the redo
    actions of the transaction at position [N - M] are a non-empty list; it
    is [M > 0] when every transaction has a non-empty list of redo
    actions. *)
Theorem add_then_undo_index (ts : list (transaction Action)) (m : nat)
    (w : World) :
  (m <= List.length ts)%nat ->
  (forall t, In t ts -> exists l, fst t = Some l /\ all_return call l) ->
  let '(o, (h, _)) := (do_adds ts ;; do_undos m) (new_history, w) in
  o = Return tt
  /\ index h = Z.of_nat (List.length ts) - Z.of_nat m
  /\ is_redo h
     = Return ((0 <? m)%nat
               && match nth_error ts (List.length ts - m) with
                  | Some t => truthy (snd t)
                  | None => false
                  end)
  /\ ((forall t, In t ts -> truthy (snd t) = true) ->
      is_redo h = Return (0 <? m)%nat).
Proof.
  intros Hm Hts. unfold bind.
  destruct (add_transactions_run ts [] None 0 w) as (w1 & A).
  assert (A' : do_adds ts (new_history, w)
               = (Return tt,
                  (mkUndoHistory (stack_of None ts)
                     (Z.of_nat (List.length ts)) 0, w1)))
    by exact A.
  rewrite A'.
  destruct (undo_times_run ts 0 m Hts (List.length ts) w1 ltac:(lia))
    as (w2 & U).
  rewrite U.
  set (h := mkUndoHistory _ _ _).
  assert (Hr : is_redo h
               = Return ((0 <? m)%nat
                         && match nth_error ts (List.length ts - m) with
                            | Some t => truthy (snd t)
                            | None => false
                            end)).
  { unfold is_redo, h. simpl undo_stack. simpl index.
    destruct (stack_of_redo ts None (List.length ts - m)) as (v & Hn).
    assert (Hz : 0 <= Z.of_nat (List.length ts) - Z.of_nat m) by lia.
    replace (Z.of_nat (List.length ts) - Z.of_nat m)
      with (Z.of_nat (List.length ts - m)) in * by lia.
    destruct (nth_error ts (List.length ts - m)) as [t|] eqn:Ht.
    - erewrite getitem_nth; [|exact Hz|rewrite Nat2Z.id; exact Hn].
      simpl.
      assert (Hlt : (List.length ts - m < List.length ts)%nat)
        by (apply nth_error_Some; congruence).
      replace (0 <? m)%nat with true
        by (symmetry; apply Nat.ltb_lt; lia).
      reflexivity.
    - apply nth_error_None in Ht.
      assert (m = 0)%nat by lia. subst m.
      rewrite Nat.sub_0_r, Nat.eqb_refl in Hn.
      rewrite Nat.sub_0_r in Hz |- *.
      erewrite getitem_nth; [|exact Hz|rewrite Nat2Z.id; exact Hn].
      reflexivity. }
  split; [reflexivity|]. split; [reflexivity|]. split; [exact Hr|].
  intros Hall. rewrite Hr. f_equal.
  destruct (nth_error ts (List.length ts - m)) as [t|] eqn:Ht.
  - rewrite (Hall t (nth_error_In _ _ Ht)). apply andb_true_r.
  - apply nth_error_None in Ht. assert (m = 0)%nat by lia. now subst m.
Qed.

End HistoryFacts.

(** *** The history on the small document *)

Lemma demo_one_color_inv : history_inv Demo.one_color.
Proof.
  split.
  - unfold len. simpl. lia.
  - exists [(None, Some [Demo.Append 7%nat])], (Some [Demo.DropLast]).
    reflexivity.
Defined.

Lemma demo_drop_last_returns : all_return Demo.call [Demo.DropLast].
Proof. intros a w [<-|[]]. reflexivity. Defined.

Lemma demo_add_color_returns (ts : list nat) (t : transaction Demo.action) :
  In t (map Demo.add_color ts) ->
  exists l, fst t = Some l /\ all_return Demo.call l.
Proof.
  intros Ht. apply in_map_iff in Ht. destruct Ht as (c & <- & _).
  exists [Demo.DropLast]. split; [reflexivity|exact demo_drop_last_returns].
Defined.

Lemma history_inv_reachable_witness :
  reachable Demo.call Demo.reflect_transaction Demo.one_color
  /\ history_inv Demo.one_color.
Proof.
  assert (R : reachable Demo.call Demo.reflect_transaction Demo.one_color).
  { eapply reach_step; [apply reach_new|].
    eapply step_add with (t := Demo.add_color 7) (w := Demo.empty).
    reflexivity. }
  split; [exact R|].
  exact (history_inv_reachable Demo.call Demo.reflect_transaction _ R).
Defined.

Lemma undo_then_add_discards_redo_witness :
  history_inv Demo.one_color
  /\ is_undo Demo.one_color = true
  /\ is_redo
       (fst (snd (add_transaction Demo.reflect_transaction (Demo.add_color 9)
                    (snd (undo Demo.call Demo.reflect_transaction
                            (Demo.one_color, Demo.one_color_world))))))
     = Return false.
Proof.
  split; [exact demo_one_color_inv|]. split; [reflexivity|].
  pose proof (undo_then_add_discards_redo Demo.call Demo.reflect_transaction
                Demo.one_color Demo.one_color_world (Demo.add_color 9)
                demo_one_color_inv eq_refl) as H.
  destruct (undo Demo.call Demo.reflect_transaction
              (Demo.one_color, Demo.one_color_world)) as [o1 [h1 w1]].
  simpl snd.
  destruct (add_transaction Demo.reflect_transaction (Demo.add_color 9)
              (h1, w1)) as [o2 [h2 w2]].
  exact (proj1 (proj2 H)).
Defined.

Lemma empty_redo_list_is_no_redo_witness :
  history_inv (@new_history Demo.action)
  /\ all_return Demo.call [Demo.DropLast]
  /\ is_redo
       (fst (snd ((add_transaction Demo.reflect_transaction Demo.no_redo ;;
                   undo Demo.call Demo.reflect_transaction)
                    (new_history, Demo.one_color_world))))
     = Return false.
Proof.
  assert (I : history_inv (@new_history Demo.action)).
  { split; [unfold len; simpl; lia|]. now exists [], None. }
  split; [exact I|]. split; [exact demo_drop_last_returns|].
  pose proof (empty_redo_list_is_no_redo Demo.call Demo.reflect_transaction
                new_history Demo.one_color_world [Demo.DropLast]
                I demo_drop_last_returns) as H.
  change (Some [Demo.DropLast], Some []) with Demo.no_redo in H.
  destruct ((add_transaction Demo.reflect_transaction Demo.no_redo ;;
             undo Demo.call Demo.reflect_transaction)
              (new_history, Demo.one_color_world)) as [o [h w]].
  exact (proj1 (proj2 (proj2 H))).
Defined.

Lemma add_then_undo_index_witness :
  index
    (fst (snd ((add_transactions Demo.reflect_transaction
                  (map Demo.add_color [1; 2; 3]%nat) ;;
                undo_times Demo.call Demo.reflect_transaction 2)
                 (new_history, Demo.empty))))
  = 3 - 2.
Proof.
  pose proof (add_then_undo_index Demo.call Demo.reflect_transaction
                (map Demo.add_color [1; 2; 3]%nat) 2 Demo.empty
                ltac:(simpl; lia)
                (demo_add_color_returns [1; 2; 3]%nat)) as H.
  destruct ((add_transactions Demo.reflect_transaction
               (map Demo.add_color [1; 2; 3]%nat) ;;
             undo_times Demo.call Demo.reflect_transaction 2)
              (new_history, Demo.empty)) as [o [h w]].
  exact (proj1 (proj2 H)).
Defined.

(** C1 as stated fails: one transaction with an empty list of redo actions
    is added and undone, [N = M = 1]; [index] is 0 and [M > 0], but
    [is_redo()] is false. *)
Lemma add_then_undo_empty_redo_counterexample :
  let '(o, (h, _)) :=
    (add_transactions Demo.reflect_transaction [Demo.no_redo] ;;
     undo_times Demo.call Demo.reflect_transaction 1)
      (new_history, Demo.empty) in
  o = Return tt
  /\ index h = 1 - 1
  /\ ~ (is_redo h = Return true <-> (0 < 1)%nat).
Proof.
  vm_compute. split; [reflexivity|]. split; [reflexivity|].
  intros [_ H]. specialize (H (le_n 1)). discriminate H.
Qed.

(** ** Numbers *)

Lemma Qltb_lt (x y : Q) : Qltb x y = true <-> (x < y)%Q.
Proof.
  unfold Qltb. rewrite negb_true_iff, <- not_true_iff_false, Qle_bool_iff.
  split; [apply Qnot_le_lt|apply Qlt_not_le].
Qed.

Lemma Qltb_ge (x y : Q) : Qltb x y = false <-> (y <= x)%Q.
Proof.
  unfold Qltb. rewrite negb_false_iff. apply Qle_bool_iff.
Qed.

(** ** Hit testing *)

(** C6: [in_bbox] holds exactly for the points strictly inside the box; a
    point on an edge is outside. *)
Theorem in_bbox_strict :
  (forall x0 y0 x1 y1 x y : Q,
      in_bbox (x0, y0, x1, y1) (x, y) = true
      <-> ((x0 < x /\ x < x1) /\ (y0 < y /\ y < y1))%Q)
  /\ in_bbox (0, 0, 10, 10)%Q (0, 5)%Q = false
  /\ in_bbox (0, 0, 10, 10)%Q (5, 5)%Q = true.
Proof.
  split; [|split; reflexivity].
  intros. unfold in_bbox. rewrite !andb_true_iff, !Qltb_lt. reflexivity.
Qed.

(** ** Scrolling *)

Lemma scroll_bound_nonneg (c : Canvas) : (0 <= scroll_bound c)%Q.
Proof.
  unfold scroll_bound. change 0%Q with (inject_Z 0).
  rewrite <- Zle_Qle. apply Z.le_max_l.
Qed.

Lemma clamp_range (lo hi x : Q) :
  (lo <= hi)%Q -> (lo <= clamp lo hi x /\ clamp lo hi x <= hi)%Q.
Proof.
  intros H. unfold clamp.
  destruct (Qltb x lo) eqn:E1; [split; [apply Qle_refl|exact H]|].
  apply Qltb_ge in E1.
  destruct (Qltb hi x) eqn:E2; [split; [exact H|apply Qle_refl]|].
  apply Qltb_ge in E2. now split.
Qed.

Lemma on_scroll_dy (cfg : Config) (s : Q) (c : Canvas) :
  (dy (on_scroll cfg s c)
   == clamp 0 (scroll_bound c) (dy c + s * mouse_scroll_sensitivity cfg))%Q.
Proof.
  unfold on_scroll, clamp, scroll_bound. cbn [set_dy dy virtual_h height].
  set (d := (dy c + s * mouse_scroll_sensitivity cfg)%Q).
  destruct (Qltb d 0) eqn:Eneg; cbn [orb]; [reflexivity|].
  destruct (virtual_h c <=? height c) eqn:Efit.
  - cbn [refresh set_dy dy]. apply Z.leb_le in Efit.
    rewrite Z.max_l by lia. change (inject_Z 0) with 0%Q.
    destruct (Qltb 0 d) eqn:Epos; [reflexivity|].
    apply Qltb_ge in Eneg, Epos. symmetry. now apply Qle_antisym.
  - apply Z.leb_gt in Efit.
    rewrite Z.max_r by lia.
    replace (height c <? virtual_h c) with true
      by (symmetry; apply Z.ltb_lt; lia).
    cbn [andb].
    destruct (Qltb (inject_Z (virtual_h c - height c)) d); reflexivity.
Qed.

Lemma on_scroll_geometry (cfg : Config) (s : Q) (c : Canvas) :
  virtual_h (on_scroll cfg s c) = virtual_h c
  /\ height (on_scroll cfg s c) = height c
  /\ refreshes (on_scroll cfg s c) = S (refreshes c).
Proof.
  unfold on_scroll. cbn [set_dy dy virtual_h height].
  destruct (_ || _); [now idtac|].
  destruct (_ && _); now idtac.
Qed.

Lemma on_scroll_range (cfg : Config) (s : Q) (c : Canvas) :
  (0 <= dy (on_scroll cfg s c) /\ dy (on_scroll cfg s c) <= scroll_bound c)%Q.
Proof.
  rewrite on_scroll_dy. apply clamp_range, scroll_bound_nonneg.
Qed.

Lemma scroll_all_range (cfg : Config) (scrolls : list Q) :
  forall c : Canvas,
  scrolls <> [] \/ (0 <= dy c /\ dy c <= scroll_bound c)%Q ->
  (0 <= dy (scroll_all cfg scrolls c)
   /\ dy (scroll_all cfg scrolls c) <= scroll_bound c)%Q.
Proof.
  induction scrolls as [|s scrolls IH]; intros c H.
  - destruct H as [H|H]; [congruence|exact H].
  - unfold scroll_all in *. cbn [fold_left].
    destruct (on_scroll_geometry cfg s c) as (Ev & Eh & _).
    assert (Eb : scroll_bound (on_scroll cfg s c) = scroll_bound c)
      by (unfold scroll_bound; now rewrite Ev, Eh).
    rewrite <- Eb. apply IH. right. rewrite Eb. apply on_scroll_range.
Qed.

(** C5: [on_scroll] adds [scroll_delta * sensitivity] to [dy], clamps the
    sum into [[0, max(0, virtual_h - height)]] and asks for a repaint; with
    [virtual_h = 1000] and [height = 300], [dy] is in [[0, 700]] after
    every run of scroll events. *)
Theorem on_scroll_clamps (cfg : Config) :
  (forall (s : Q) (c : Canvas),
      (dy (on_scroll cfg s c)
       == clamp 0 (scroll_bound c)
            (dy c + s * mouse_scroll_sensitivity cfg))%Q
      /\ (0 <= dy (on_scroll cfg s c) <= scroll_bound c)%Q
      /\ refreshes (on_scroll cfg s c) = S (refreshes c))
  /\ (forall (scrolls : list Q) (c : Canvas),
         virtual_h c = 1000 -> height c = 300 ->
         scrolls <> [] \/ (0 <= dy c <= 700)%Q ->
         (0 <= dy (scroll_all cfg scrolls c) <= 700)%Q).
Proof.
  split.
  - intros s c. split; [apply on_scroll_dy|].
    split; [apply on_scroll_range|apply on_scroll_geometry].
  - intros scrolls c Hv Hh H.
    assert (Eb : scroll_bound c = 700%Q)
      by (unfold scroll_bound; now rewrite Hv, Hh).
    rewrite <- Eb in H |- *. now apply scroll_all_range.
Qed.

(** ** The scrollbar thumb *)

(** C7: [ScrollObj.paint] on a viewport of height [h >= 0] returns; when
    [virtual_h > h], [coef] is [h / virtual_h], the thumb is drawn with
    height [h * coef] and top [dy + dy * coef], its box spans that
    rectangle and [active] is true; otherwise the thumb box is [NO_BBOX],
    [coef] is 1, nothing is drawn and [active] is false. *)
Theorem ScrollObj_paint_thumb (cfg : Config) (cv : Canvas) (s : ScrollObj)
    (ctx : list draw) :
  0 <= height cv ->
  let '(o, (s', ctx')) := ScrollObj_paint cfg cv (s, ctx) in
  let w := inject_Z (width cv) in
  let h := inject_Z (height cv) in
  let sw := inject_Z (if hover s then scroll_hover cfg else scroll_normal cfg) in
  o = Return tt
  /\ if height cv <? virtual_h cv then
       let y := (dy cv + dy cv * coef s')%Q in
       coef s' = (h / inject_Z (virtual_h cv))%Q
       /\ tbbox s' = ((w - sw)%Q, y, w, (y + h * coef s')%Q)
       /\ ctx' = ctx ++ [SetSourceRgba (scroll_fg cfg);
                         Rectangle (w - sw)%Q y w (h * coef s')%Q;
                         Fill]
       /\ active s' = true
     else
       tbbox s' = NO_BBOX /\ coef s' = 1%Q /\ ctx' = ctx /\ active s' = false.
Proof.
  intros Hh. unfold ScrollObj_paint.
  destruct (height cv <? virtual_h cv) eqn:E.
  - apply Z.ltb_lt in E. unfold truediv.
    replace (virtual_h cv =? 0) with false
      by (symmetry; apply Z.eqb_neq; lia).
    cbn [coef tbbox active]. repeat split.
  - cbn [coef tbbox active]. repeat split.
Qed.

Lemma ScrollObj_paint_thumb_witness :
  let cv := mkCanvas 50 700 400 300 1000 5 40 0 in
  0 <= height cv
  /\ coef (fst (snd (ScrollObj_paint (mkConfig 10 70 60 12 6 [] [] 1) cv
                       (new_scroll, []))))
     = (inject_Z 300 / inject_Z 1000)%Q.
Proof.
  intros cv. assert (H : 0 <= height cv) by (simpl; lia).
  split; [exact H|].
  pose proof (ScrollObj_paint_thumb (mkConfig 10 70 60 12 6 [] [] 1) cv
                new_scroll [] H) as P.
  destruct (ScrollObj_paint (mkConfig 10 70 60 12 6 [] [] 1) cv
              (new_scroll, [])) as [o [s' ctx']].
  cbv zeta in P. destruct P as [_ P].
  change (height cv <? virtual_h cv) with true in P. cbv iota in P.
  exact (proj1 P).
Defined.

(** ** Layout *)

(** C4: [Canvas.paint] divides the number of cells by [cell_max] without a
    guard.  On a viewport too narrow for one cell, [cell_max] becomes 0 and
    the method raises ZeroDivisionError, for every number of cells;
    [AddButtonObj.paint] has the guard and would put the button in row 0. *)
Theorem Canvas_paint_zero_cells_per_row (cfg : Config) (c : Canvas)
    (w h : Z) :
  0 < cell_width cfg ->
  0 <= w - 2 * canvas_border cfg < cell_width cfg ->
  let '(o, c') := Canvas_paint cfg (w, h) c in
  o = Raise ZeroDivisionError
  /\ cell_max c' = 0
  /\ add_button_cell c' = (Z.of_nat (colors c), 0).
Proof.
  intros Hw Hnarrow.
  unfold Canvas_paint, bind, get, put, lift, floordiv, truediv.
  replace (cell_width cfg =? 0) with false
    by (symmetry; apply Z.eqb_neq; lia).
  rewrite (Z.div_small _ _ Hnarrow). cbn [set_cell_max cell_max Z.eqb].
  repeat split. unfold add_button_cell, set_cell_max.
  cbn [cell_max colors Z.eqb]. f_equal. lia.
Qed.

Lemma Canvas_paint_zero_cells_per_row_witness :
  fst (Canvas_paint (mkConfig 10 70 60 12 6 [] [] 1) (50, 300) (new_canvas 3))
  = Raise ZeroDivisionError.
Proof.
  pose proof (Canvas_paint_zero_cells_per_row
                (mkConfig 10 70 60 12 6 [] [] 1) (new_canvas 3) 50 300
                ltac:(simpl; lia) ltac:(simpl; lia)) as P.
  destruct (Canvas_paint (mkConfig 10 70 60 12 6 [] [] 1) (50, 300)
              (new_canvas 3)) as [o c'].
  exact (proj1 P).
Defined.

(** When a row holds at least one cell, or the viewport is narrower than
    the two borders, the layout of [Canvas.paint] returns. *)
Lemma Canvas_paint_returns (cfg : Config) (c : Canvas) (w h : Z) :
  0 < cell_width cfg ->
  w - 2 * canvas_border cfg < 0 \/ cell_width cfg <= w - 2 * canvas_border cfg ->
  fst (Canvas_paint cfg (w, h) c) = Return tt.
Proof.
  intros Hw Hwide.
  unfold Canvas_paint, bind, get, put, lift, floordiv, truediv.
  replace (cell_width cfg =? 0) with false
    by (symmetry; apply Z.eqb_neq; lia).
  cbn [set_cell_max cell_max].
  replace ((w - 2 * canvas_border cfg) / cell_width cfg =? 0) with false;
    [reflexivity|].
  symmetry. apply Z.eqb_neq. intros E.
  apply Z.div_small_iff in E; lia.
Qed.

Lemma on_scroll_clamps_witness :
  let cfg := mkConfig 10 70 60 12 6 [] [] 30 in
  let c := mkCanvas 0 700 400 300 1000 5 40 0 in
  (0 <= dy (scroll_all cfg [3; -50; 7]%Q c) <= 700)%Q.
Proof.
  intros cfg c.
  apply (proj2 (on_scroll_clamps cfg) [3; -50; 7]%Q c eq_refl eq_refl).
  left. discriminate.
Defined.

(** ** Colour labels *)

Lemma string_app_assoc (a b c : string) :
  ((a ++ b) ++ c = a ++ (b ++ c))%string.
Proof. induction a as [|x a IH]; simpl; [|rewrite IH]; reflexivity. Qed.

Lemma upper_app (a b : string) :
  upper (a ++ b) = (upper a ++ upper b)%string.
Proof. induction a as [|x a IH]; simpl; [|rewrite IH]; reflexivity. Qed.

(** [round(x)] is a nearest integer. *)
Lemma py_round_nearest (x : Q) :
  (- (1 # 2) <= x - inject_Z (py_round x) <= 1 # 2)%Q.
Proof.
  pose proof (Qfloor_le x) as Hlo. pose proof (Qlt_floor x) as Hhi.
  rewrite inject_Z_plus in Hhi. change (inject_Z 1) with 1%Q in Hhi.
  unfold py_round.
  destruct (Qcompare (x - inject_Z (Qfloor x)) (1 # 2)) eqn:E.
  - apply Qeq_alt in E.
    destruct (Z.even (Qfloor x)); [lra|].
    rewrite inject_Z_plus. change (inject_Z 1) with 1%Q. lra.
  - apply Qlt_alt in E. lra.
  - apply Qgt_alt in E. rewrite inject_Z_plus.
    change (inject_Z 1) with 1%Q. lra.
Qed.

(** A channel in [[0, 1]] gives a byte. *)
Lemma py_round_channel (v : Q) :
  (0 <= v <= 1)%Q -> 0 <= py_round (v * 255) <= 255.
Proof.
  intros [H0 H1].
  assert (Hx0 : (0 <= v * 255)%Q) by lra.
  assert (Hx1 : (v * 255 <= 255)%Q) by lra.
  pose proof (Qfloor_resp_le _ _ Hx0) as F0.
  pose proof (Qfloor_resp_le _ _ Hx1) as F1.
  change (0 <= Qfloor (v * 255)) in F0.
  change (Qfloor (v * 255) <= 255) in F1.
  unfold py_round.
  destruct (Qcompare (v * 255 - inject_Z (Qfloor (v * 255))) (1 # 2)) eqn:E.
  - destruct (Z.even (Qfloor (v * 255))); [lia|].
    destruct (Z.eq_dec (Qfloor (v * 255)) 255) as [E255|]; [|lia].
    apply Qeq_alt in E. rewrite E255 in E.
    change (inject_Z 255) with 255%Q in E. lra.
  - lia.
  - destruct (Z.eq_dec (Qfloor (v * 255)) 255) as [E255|]; [|lia].
    apply Qgt_alt in E. rewrite E255 in E.
    change (inject_Z 255) with 255%Q in E. lra.
Qed.

(** The text one channel adds to the label, for every byte: checked on the
    256 of them. *)
Lemma byte_label (n : Z) :
  0 <= n <= 255 ->
  upper (if (String.length (from_2 (hex n)) <? 2)%nat
         then ("0" ++ from_2 (hex n))%string
         else from_2 (hex n))
  = two_hex_digits n.
Proof.
  intros Hn.
  assert (All : forallb
                  (fun k =>
                     let m := Z.of_nat k in
                     String.eqb
                       (upper (if (String.length (from_2 (hex m)) <? 2)%nat
                               then ("0" ++ from_2 (hex m))%string
                               else from_2 (hex m)))
                       (two_hex_digits m))
                  (seq 0 256) = true) by (vm_compute; reflexivity).
  rewrite forallb_forall in All.
  specialize (All (Z.to_nat n)). cbv zeta in All.
  rewrite Z2Nat.id in All by lia.
  apply String.eqb_eq, All, in_seq. lia.
Qed.

Lemma color_to_hex_loop_label (color : list Q) :
  Forall (fun v => (0 <= v <= 1)%Q) color ->
  forall acc : string,
  upper (color_to_hex_loop color acc)
  = (upper acc
     ++ fold_right (fun v rest => two_hex_digits (py_round (v * 255)) ++ rest)
          "" color)%string.
Proof.
  induction 1 as [|v color Hv _ IH]; intros acc; cbn [color_to_hex_loop fold_right].
  - clear. induction acc as [|c acc IH]; simpl; [|rewrite <- IH]; reflexivity.
  - rewrite IH, upper_app, string_app_assoc.
    now rewrite (byte_label _ (py_round_channel v Hv)).
Qed.


(** ** UndoHistory: round trips, failures and the saved mark *)

Section HistoryRoundTrips.

Context {Action World : Type}.
Variable call : Action -> M World unit.
Variable reflect_transaction : bool -> World -> World.

Local Abbreviation history := (UndoHistory Action).
Local Abbreviation do_add := (add_transaction reflect_transaction).
Local Abbreviation do_undo := (undo call reflect_transaction).
Local Abbreviation do_redo := (redo call reflect_transaction).
Local Abbreviation do_adds := (add_transactions reflect_transaction).
Local Abbreviation do_undos := (undo_times call reflect_transaction).
Local Abbreviation do_redos := (redo_times call reflect_transaction).

(** [redo] when the entry at [index] has a non-empty list of redo actions
    that all return: [index] moves forward by one and the stack is kept. *)
Lemma redo_run (h : history) (w : World) e l :
  getitem (undo_stack h) (index h) = Return e ->
  snd e = Some l -> l <> [] -> all_return call l ->
  exists w', do_redo (h, w) = (Return tt, (set_index h (index h + 1), w')).
Proof.
  intros Hg He Hne Hl.
  destruct (for_each_all_return call l h w Hl) as (w1 & R).
  unfold redo, bind, get_history, lift, put_history,
    canvas_reflect_transaction, ret, is_redo. simpl.
  rewrite Hg, He. destruct l as [|a l]; [congruence|].
  cbn [truthy replay]. rewrite R. simpl. eauto.
Qed.

Lemma set_index_back (h : history) (i : Z) :
  i = index h -> set_index (set_index h (index h - 1)) i = h.
Proof. intros ->. now destruct h. Qed.

(** The state after [add_transaction(t)] on a history that satisfies the
    invariant, as [add_transaction_inv] gives it, with the entries it reads
    back. *)
Lemma after_add_entries (s : list (transaction Action)) (u : actions Action)
    (t : transaction Action) :
  getitem (s ++ [(u, snd t); (fst t, None)]) (len s + 1) = Return (fst t, None)
  /\ getitem (s ++ [(u, snd t); (fst t, None)]) (len s) = Return (u, snd t).
Proof.
  split; [|apply getitem_app_head].
  replace (len s + 1) with (len (s ++ [(u, snd t)]))
    by (rewrite len_app; reflexivity).
  change (s ++ [(u, snd t); (fst t, None)])
    with (s ++ [(u, snd t)] ++ [(fst t, @None (list Action))]).
  rewrite app_assoc. apply getitem_tip.
Qed.

(** X1: after [add_transaction((lu, lr))] on a history that satisfies the
    class invariant, with actions that return and [lr] not empty, [undo()]
    followed by [redo()] returns and gives back the very history the
    [add_transaction] left. *)
Theorem undo_redo_round_trip (h : history) (w : World)
    (lu lr : list Action) :
  history_inv h -> all_return call lu -> all_return call lr -> lr <> [] ->
  let '(o1, (h1, w1)) := do_add (Some lu, Some lr) (h, w) in
  let '(o2, (h2, _)) := (do_undo ;; do_redo) (h1, w1) in
  o1 = Return tt /\ o2 = Return tt /\ h2 = h1.
Proof.
  intros Hinv Hlu Hlr Hne.
  destruct (add_transaction_inv reflect_transaction (Some lu, Some lr) h w Hinv)
    as (s & e & _ & Hl & R).
  rewrite R. cbv zeta. cbn [fst snd].
  set (h1 := mkUndoHistory _ _ _). set (w1 := reflect_transaction _ _).
  destruct (after_add_entries s (fst e) (Some lu, Some lr)) as [Gtip Gprev].
  cbn [fst snd] in Gtip, Gprev.
  assert (Hu : is_undo h1 = true).
  { apply Z.ltb_lt. unfold h1. cbn [index]. destruct Hinv as [Hi _]. lia. }
  assert (Hg : getitem (undo_stack h1) (index h1) = Return (Some lu, None)).
  { unfold h1. cbn [undo_stack index]. now rewrite <- Hl. }
  destruct (undo_run call reflect_transaction h1 w1 _ lu Hu Hg eq_refl Hlu)
    as (w2 & U).
  unfold bind at 1. rewrite U.
  assert (Hg' : getitem (undo_stack (set_index h1 (index h1 - 1)))
                  (index (set_index h1 (index h1 - 1)))
                = Return (fst e, Some lr)).
  { unfold h1. cbn [set_index undo_stack index].
    replace (index h + 1 - 1) with (len s) by lia. exact Gprev. }
  destruct (redo_run (set_index h1 (index h1 - 1)) w2 _ lr Hg' eq_refl Hne Hlr)
    as (w3 & Rd).
  rewrite Rd. split; [reflexivity|]. split; [reflexivity|].
  apply set_index_back. cbn [set_index index]. lia.
Qed.

(** X2: [undo] and [redo] never touch the stack or [saved_index], and when
    one of them raises, an action failing or the actions being [None],
    [index] has not moved: the history is the one before the call. *)
Theorem undo_redo_failure_keeps_history (h : history) (w : World) :
  (let '(o, (h', _)) := undo call reflect_transaction (h, w) in
   undo_stack h' = undo_stack h /\ saved_index h' = saved_index h
   /\ (o <> Return tt -> h' = h))
  /\ (let '(o, (h', _)) := redo call reflect_transaction (h, w) in
      undo_stack h' = undo_stack h /\ saved_index h' = saved_index h
      /\ (o <> Return tt -> h' = h)).
Proof.
  split.
  - destruct (do_undo (h, w)) as [o [h' w']] eqn:E.
    destruct (undo_cases _ _ _ _ _ _ _ E) as [->|(_ & -> & ->)].
    + repeat split.
    + repeat split. congruence.
  - destruct (do_redo (h, w)) as [o [h' w']] eqn:E.
    destruct (redo_cases _ _ _ _ _ _ _ E) as [->|(_ & -> & ->)].
    + repeat split.
    + repeat split. congruence.
Qed.

(** X3: a transaction whose undo actions are [None] is accepted by
    [add_transaction], and the [undo()] after it raises TypeError with
    [index] still on that transaction. *)
Theorem undo_of_missing_actions_raises (h : history) (w : World)
    (r : actions Action) :
  history_inv h ->
  let '(o1, (h1, w1)) := do_add (None, r) (h, w) in
  o1 = Return tt
  /\ index h1 = index h + 1
  /\ do_undo (h1, w1) = (Raise TypeError, (h1, w1)).
Proof.
  intros Hinv.
  destruct (add_transaction_inv reflect_transaction (None, r) h w Hinv)
    as (s & e & _ & Hl & R).
  rewrite R. cbv zeta. cbn [fst snd].
  split; [reflexivity|]. split; [reflexivity|].
  destruct (after_add_entries s (fst e) (None, r)) as [Gtip _].
  cbn [fst snd] in Gtip.
  unfold undo, bind, get_history, lift, is_undo. cbn [fst snd index undo_stack].
  replace (0 <? index h + 1) with true
    by (symmetry; apply Z.ltb_lt; destruct Hinv as [Hi _]; lia).
  rewrite <- Hl, Gtip. reflexivity.
Qed.

Lemma add_transactions_inv_run (ts : list (transaction Action)) :
  forall (h : history) (w : World),
  history_inv h ->
  exists h' w',
    do_adds ts (h, w) = (Return tt, (h', w'))
    /\ history_inv h'
    /\ index h' = index h + len ts
    /\ saved_index h' = saved_index h.
Proof.
  induction ts as [|t ts IH]; intros h w Hinv.
  - exists h, w. repeat split; try apply Hinv. unfold len. simpl. lia.
  - cbn [add_transactions]. unfold bind.
    destruct (do_add t (h, w)) as [o [h1 w1]] eqn:E.
    pose proof (add_transaction_preserves reflect_transaction _ _ _ _ _ _
                  Hinv E) as Hinv1.
    destruct (add_transaction_inv reflect_transaction t h w Hinv)
      as (s & e & _ & _ & R).
    rewrite R in E. cbv zeta in E.
    assert (Ho : o = Return tt) by congruence.
    assert (Hi1 : index h1 = index h + 1)
      by (injection E as _ E _; now rewrite <- E).
    assert (Hs1 : saved_index h1 = saved_index h)
      by (injection E as _ E _; now rewrite <- E).
    subst o. destruct (IH h1 w1 Hinv1) as (h' & w' & A & Hinv' & Hi & Hs).
    exists h', w'. split; [exact A|]. split; [exact Hinv'|].
    split; [|congruence].
    rewrite Hi, Hi1. unfold len. simpl List.length. lia.
Qed.

(** An [undo] that returns on a history with something to undo has moved
    [index] back by one. *)
Lemma undo_returns_moves (h h' : history) (w w' : World) :
  is_undo h = true -> do_undo (h, w) = (Return tt, (h', w')) ->
  h' = set_index h (index h - 1).
Proof.
  intros Hu E.
  unfold undo, bind, get_history, lift, put_history,
    canvas_reflect_transaction, ret in E. simpl in E. rewrite Hu in E.
  destruct (getitem (undo_stack h) (index h)) as [e|x]; [|discriminate].
  destruct (replay call (fst e) (h, w)) as [[[]|x] [h1 w1]] eqn:P;
    [|discriminate].
  apply replay_history in P. subst h1. simpl in E. congruence.
Qed.

(** X4: right after [set_saved()] the history [is_saved()]; after one or
    more [add_transaction] calls it is not, and after an [undo()] that
    returns it is not either. *)
Theorem saved_mark_after_edits (h : history) (w : World) :
  history_inv h ->
  is_saved (set_saved h) = true
  /\ (forall ts : list (transaction Action),
         ts <> [] ->
         let '(o, (h', _)) := do_adds ts (set_saved h, w) in
         o = Return tt /\ is_saved h' = false)
  /\ (is_undo h = true ->
      let '(o, (h', _)) := do_undo (set_saved h, w) in
      o = Return tt -> is_saved h' = false).
Proof.
  intros Hinv. split; [apply Z.eqb_refl|]. split.
  - intros ts Hts.
    destruct (add_transactions_inv_run ts (set_saved h) w Hinv)
      as (h' & w' & A & _ & Hi & Hs).
    rewrite A. split; [reflexivity|].
    unfold is_saved. apply Z.eqb_neq. rewrite Hi, Hs. cbn [set_saved index saved_index].
    destruct ts; [congruence|]. unfold len. simpl List.length. lia.
  - intros Hu. destruct (do_undo (set_saved h, w)) as [o [h' w']] eqn:E.
    intros ->. apply undo_returns_moves in E; [|exact Hu]. subst h'.
    unfold is_saved. apply Z.eqb_neq. cbn [set_saved set_index index saved_index].
    lia.
Qed.

(** X5: [is_saved()] compares positions only.  After [set_saved()], an
    [undo()] that returns and an [add_transaction(t)], [index] is back on
    [saved_index] and [is_saved()] is true again, for every [t], although
    the saved transaction was replaced by [t]. *)
Theorem saved_mark_after_branch (h : history) (w : World)
    (t : transaction Action) :
  history_inv h -> is_undo h = true ->
  let '(o1, (h1, w1)) := do_undo (set_saved h, w) in
  let '(o2, (h2, _)) := do_add t (h1, w1) in
  o1 = Return tt ->
  o2 = Return tt /\ is_saved h2 = true
  /\ getitem (undo_stack h2) (index h2) = Return (fst t, None).
Proof.
  intros Hinv Hu.
  destruct (do_undo (set_saved h, w)) as [o1 [h1 w1]] eqn:E1.
  assert (Hinv1 : history_inv h1).
  { eapply history_step_preserves; [|eapply step_undo; exact E1]. exact Hinv. }
  destruct (add_transaction_inv reflect_transaction t h1 w1 Hinv1)
    as (s & e & _ & Hl & R).
  rewrite R. cbv zeta. intros ->.
  apply undo_returns_moves in E1; [|exact Hu]. subst h1.
  cbn [set_saved set_index index saved_index undo_stack] in *.
  split; [reflexivity|]. split.
  - unfold is_saved. cbn [index saved_index]. apply Z.eqb_eq. lia.
  - rewrite <- Hl. apply (after_add_entries s (fst e) t).
Qed.

(** [m] calls of [redo] on the stack of [ts], from [index] [k]. *)
Lemma redo_times_run (ts : list (transaction Action)) (sv : Z) (m : nat) :
  (forall t, In t ts ->
             exists l, snd t = Some l /\ l <> [] /\ all_return call l) ->
  forall (k : nat) (w : World),
  (k + m <= List.length ts)%nat ->
  exists w',
    do_redos m (mkUndoHistory (stack_of None ts) (Z.of_nat k) sv, w)
    = (Return tt,
       (mkUndoHistory (stack_of None ts) (Z.of_nat (k + m)) sv, w')).
Proof.
  intros Hts. induction m as [|m IH]; intros k w Hk.
  - exists w. cbn [redo_times]. unfold ret. now rewrite Nat.add_0_r.
  - destruct (nth_error ts k) as [t|] eqn:Ht;
      [|apply nth_error_None in Ht; lia].
    destruct (Hts t (nth_error_In _ _ Ht)) as (l & Hl & Hne & Hret).
    destruct (stack_of_redo ts None k) as (v & Hn). rewrite Ht in Hn.
    set (h := mkUndoHistory (stack_of None ts) (Z.of_nat k) sv).
    assert (Hg : getitem (undo_stack h) (index h) = Return (v, snd t)).
    { apply getitem_nth; unfold h; cbn [undo_stack index]; [lia|].
      now rewrite Nat2Z.id. }
    destruct (redo_run h w _ l Hg Hl Hne Hret) as (w1 & U).
    cbn [redo_times]. unfold bind at 1. rewrite U.
    destruct (IH (S k) w1 ltac:(lia)) as (w' & R).
    exists w'. unfold set_index, h. cbn [undo_stack index saved_index].
    replace (Z.of_nat k + 1) with (Z.of_nat (S k)) by lia.
    rewrite R. do 4 f_equal. lia.
Qed.

(** X6: [N] calls of [add_transaction] on a new history, [M <= N] calls of
    [undo] and then [M] calls of [redo], with actions that return and redo
    lists that are not empty, all return and end at the tip again:
    [index] is [N], the stack is the one the [add_transaction] calls built
    and [is_redo()] is false. *)
Theorem add_undo_redo_round_trip (ts : list (transaction Action)) (m : nat)
    (w : World) :
  (m <= List.length ts)%nat ->
  (forall t, In t ts -> exists l, fst t = Some l /\ all_return call l) ->
  (forall t, In t ts ->
             exists l, snd t = Some l /\ l <> [] /\ all_return call l) ->
  let '(o, (h, _)) :=
    (do_adds ts ;; do_undos m ;; do_redos m) (new_history, w) in
  o = Return tt
  /\ index h = len ts
  /\ undo_stack h = stack_of None ts
  /\ is_redo h = Return false.
Proof.
  intros Hm Hu Hr. unfold bind.
  destruct (add_transactions_run reflect_transaction ts [] None 0 w)
    as (w1 & A).
  assert (A' : do_adds ts (new_history, w)
               = (Return tt,
                  (mkUndoHistory (stack_of None ts)
                     (Z.of_nat (List.length ts)) 0, w1)))
    by exact A.
  rewrite A'.
  destruct (undo_times_run call reflect_transaction ts 0 m Hu
              (List.length ts) w1 ltac:(lia)) as (w2 & U).
  rewrite U.
  replace (Z.of_nat (List.length ts) - Z.of_nat m)
    with (Z.of_nat (List.length ts - m)) by lia.
  destruct (redo_times_run ts 0 m Hr (List.length ts - m) w2 ltac:(lia))
    as (w3 & R).
  rewrite R.
  replace (List.length ts - m + m)%nat with (List.length ts) by lia.
  split; [reflexivity|]. split; [reflexivity|]. split; [reflexivity|].
  unfold is_redo. cbn [undo_stack index].
  destruct (stack_of_redo ts None (List.length ts)) as (v & Hn).
  replace (nth_error ts (List.length ts)) with (@None (transaction Action))
    in Hn by (symmetry; apply nth_error_None; lia).
  rewrite Nat.eqb_refl in Hn.
  erewrite getitem_nth; [|lia|rewrite Nat2Z.id; exact Hn]. reflexivity.
Qed.

End HistoryRoundTrips.

(** ** Boxes, labels and text colour *)

(** X7: a box that is empty, its right edge not right of its left edge or
    its bottom not below its top, contains no point; [NO_BBOX] and the box
    of a rectangle without positive width are such boxes. *)
Theorem in_bbox_empty_box (x0 y0 x1 y1 : Q) (p : point) :
  (x1 <= x0 \/ y1 <= y0)%Q ->
  in_bbox (x0, y0, x1, y1) p = false.
Proof.
  intros H. destruct p as [x y]. unfold in_bbox.
  destruct (Qltb x0 x) eqn:E1; [|reflexivity].
  destruct (Qltb x x1) eqn:E2; [|reflexivity].
  destruct (Qltb y0 y) eqn:E3; [|reflexivity].
  destruct (Qltb y y1) eqn:E4; [|reflexivity].
  apply Qltb_lt in E1, E2, E3, E4. lra.
Qed.

Lemma in_bbox_empty_box_witness :
  in_bbox NO_BBOX (3, 4)%Q = false
  /\ in_bbox (rect2bbox (5, 5, -2, 10)%Q) (4, 6)%Q = false.
Proof.
  split.
  - apply in_bbox_empty_box. left. discriminate.
  - apply in_bbox_empty_box. left. discriminate.
Defined.

Lemma length_two_hex_digits_app (n : Z) (r : string) :
  String.length (two_hex_digits n ++ r) = S (S (String.length r)).
Proof. reflexivity. Qed.

(** X8: for channels in [[0, 1]] the label has one character for ["#"] and
    two for every channel, seven for a colour of three channels. *)
Theorem color_to_hex_length (color : list Q) :
  Forall (fun v => (0 <= v <= 1)%Q) color ->
  String.length (color_to_hex color) = S (2 * List.length color).
Proof.
  intros Hc. unfold color_to_hex.
  rewrite (color_to_hex_loop_label color Hc). cbn [upper append String.length].
  f_equal. clear Hc. induction color as [|v color IH]; [reflexivity|].
  cbn [fold_right List.length]. rewrite length_two_hex_digits_app, IH. lia.
Qed.

Lemma color_to_hex_length_witness :
  String.length (color_to_hex [1 # 3; 0; 1]%Q) = 7%nat.
Proof.
  apply (color_to_hex_length [1 # 3; 0; 1]%Q).
  repeat constructor; discriminate.
Defined.

(** X9: a colour that [check_brightness] gives a border to, saturation
    below 10 and value above 90, gets black text from [text_color], whatever
    the conversion to HSV returns for it. *)
Theorem bright_swatch_has_black_text
    (colorsys_rgb_to_hsv : Q -> Q -> Q -> Q * Q * Q) (color : Q * Q * Q) :
  check_brightness colorsys_rgb_to_hsv color = true ->
  text_color colorsys_rgb_to_hsv color = CAIRO_BLACK.
Proof.
  unfold check_brightness, text_color.
  destruct (rgb_to_hsv colorsys_rgb_to_hsv color) as [[h s] v].
  intros H. apply andb_true_iff in H. destruct H as [Hs Hv].
  apply Qltb_lt in Hs, Hv.
  replace (Qltb v 55) with false by (symmetry; apply Qltb_ge; lra).
  replace (Qltb 80 s) with false by (symmetry; apply Qltb_ge; lra).
  reflexivity.
Qed.

Lemma bright_swatch_has_black_text_witness :
  text_color (fun r g b => (0, 1 # 20, 19 # 20)%Q) (1, 1, 1)%Q = CAIRO_BLACK.
Proof.
  apply bright_swatch_has_black_text. reflexivity.
Defined.

(** ** The scroll offset under painting and navigation *)

(** The canvas [Canvas.paint] leaves when its layout returns. *)
Lemma Canvas_paint_run (cfg : Config) (c : Canvas) (w h : Z) :
  let m := (w - 2 * canvas_border cfg) / cell_width cfg in
  let vh := 2 * canvas_border cfg
            + Qceiling (inject_Z (Z.of_nat (colors c)) / inject_Z m)
              * cell_height cfg in
  let md := if 0 <? vh - h then vh - h else 0 in
  Canvas_paint cfg (w, h) c =
  if cell_width cfg =? 0 then (Raise ZeroDivisionError, c)
  else if m =? 0 then (Raise ZeroDivisionError, set_cell_max c m)
  else (Return tt,
        mkCanvas (py_min (dy c) (inject_Z md)) md w h vh m
          (colors c) (refreshes c)).
Proof.
  unfold Canvas_paint, bind, get, put, lift, floordiv, truediv.
  destruct (cell_width cfg =? 0); [reflexivity|].
  cbn [set_cell_max cell_max colors].
  destruct ((w - 2 * canvas_border cfg) / cell_width cfg =? 0); reflexivity.
Qed.

Lemma py_min_le (a b : Q) : (py_min a b <= a /\ py_min a b <= b)%Q.
Proof.
  unfold py_min. destruct (Qltb b a) eqn:E.
  - apply Qltb_lt in E. split; lra.
  - apply Qltb_ge in E. split; lra.
Qed.

Lemma py_min_ge (a b c : Q) : (c <= a -> c <= b -> c <= py_min a b)%Q.
Proof. unfold py_min. now destruct (Qltb b a). Qed.

Lemma py_max_ge (a b : Q) : (a <= py_max a b /\ b <= py_max a b)%Q.
Proof.
  unfold py_max. destruct (Qltb a b) eqn:E.
  - apply Qltb_lt in E. split; lra.
  - apply Qltb_ge in E. split; lra.
Qed.

Lemma py_max_le (a b c : Q) : (a <= c -> b <= c -> py_max a b <= c)%Q.
Proof. unfold py_max. now destruct (Qltb a b). Qed.

(** X10: when the layout of [Canvas.paint] returns, the viewport size is
    stored, [max_dy] is [max(0, virtual_h - height)], and [dy] is
    [min(dy, max_dy)] of the old [dy] and the new [max_dy]: never above
    [max_dy], never moved up, and not negative unless it was; a negative
    [dy] is kept as it is. *)
Theorem Canvas_paint_bounds_dy (cfg : Config) (c : Canvas) (w h : Z) :
  let '(o, c') := Canvas_paint cfg (w, h) c in
  o = Return tt ->
  width c' = w /\ height c' = h
  /\ max_dy c' = Z.max 0 (virtual_h c' - height c')
  /\ (dy c' <= inject_Z (max_dy c'))%Q
  /\ (dy c' <= dy c)%Q
  /\ ((0 <= dy c)%Q -> (0 <= dy c')%Q)
  /\ ((dy c < 0)%Q -> dy c' = dy c)
  /\ dy c' = py_min (dy c) (inject_Z (max_dy c'))
  /\ ((dy c <= inject_Z (max_dy c'))%Q -> dy c' = dy c)
  /\ ((inject_Z (max_dy c') < dy c)%Q -> dy c' = inject_Z (max_dy c')).
Proof.
  rewrite Canvas_paint_run. cbv zeta.
  destruct (cell_width cfg =? 0); [discriminate|].
  destruct (_ =? 0); [discriminate|].
  intros _. cbn [width height max_dy virtual_h dy].
  set (vh := 2 * canvas_border cfg + _ * cell_height cfg).
  set (md := if 0 <? vh - h then vh - h else 0).
  assert (Hmd : md = Z.max 0 (vh - h))
    by (unfold md; destruct (0 <? vh - h) eqn:E;
        [apply Z.ltb_lt in E|apply Z.ltb_ge in E]; lia).
  assert (H0 : (0 <= inject_Z md)%Q)
    by (change 0%Q with (inject_Z 0); rewrite <- Zle_Qle; lia).
  destruct (py_min_le (dy c) (inject_Z md)) as [Ha Hb].
  repeat split; try assumption.
  - intros Hd. now apply py_min_ge.
  - intros Hd. unfold py_min.
    replace (Qltb (inject_Z md) (dy c)) with false; [reflexivity|].
    symmetry. apply Qltb_ge. lra.
  - intros Hd. unfold py_min.
    replace (Qltb (inject_Z md) (dy c)) with false; [reflexivity|].
    symmetry. now apply Qltb_ge.
  - intros Hd. unfold py_min.
    replace (Qltb (inject_Z md) (dy c)) with true; [reflexivity|].
    symmetry. now apply Qltb_lt.
Qed.

Lemma Canvas_paint_bounds_dy_witness :
  let c' := snd (Canvas_paint (mkConfig 10 70 60 12 6 [] [] 1) (400, 100)
                   (mkCanvas 900 0 0 0 0 5 12 0)) in
  (dy c' <= inject_Z (max_dy c'))%Q.
Proof.
  pose proof (Canvas_paint_bounds_dy (mkConfig 10 70 60 12 6 [] [] 1)
                (mkCanvas 900 0 0 0 0 5 12 0) 400 100) as H.
  destruct (Canvas_paint (mkConfig 10 70 60 12 6 [] [] 1) (400, 100)
              (mkCanvas 900 0 0 0 0 5 12 0)) as [o c1] eqn:E.
  assert (Ho : o = Return tt) by (vm_compute in E; congruence).
  exact (proj1 (proj2 (proj2 (proj2 (H Ho))))).
Defined.

(** X11: with [dy] in [[0, max_dy]], a viewport height and a cell height
    that are not negative, each of [go_home], [go_end], [page_up],
    [page_down], [scroll_up] and [scroll_down] leaves [dy] in
    [[0, max_dy]]; [go_home] leaves 0 and [go_end] leaves [max_dy]. *)
Theorem navigation_keeps_dy_in_range (cfg : Config) (c : Canvas) :
  dy_in_range c -> 0 <= height c -> 0 <= cell_height cfg ->
  (dy_in_range (go_home c) /\ dy (go_home c) = 0%Q)
  /\ (dy_in_range (go_end c) /\ dy (go_end c) = inject_Z (max_dy c))
  /\ dy_in_range (page_up c)
  /\ dy_in_range (page_down c)
  /\ dy_in_range (scroll_up cfg c)
  /\ dy_in_range (scroll_down cfg c).
Proof.
  intros [H0 H1] Hh Hc.
  assert (Hh' : (0 <= inject_Z (height c))%Q)
    by (change 0%Q with (inject_Z 0); now rewrite <- Zle_Qle).
  assert (Hc' : (0 <= inject_Z (cell_height cfg / 2))%Q).
  { change 0%Q with (inject_Z 0). rewrite <- Zle_Qle.
    apply Z.div_pos; lia. }
  assert (Hm : (0 <= inject_Z (max_dy c))%Q) by lra.
  unfold dy_in_range, go_home, go_end, page_up, page_down, scroll_up,
    scroll_down.
  cbn [refresh set_dy dy max_dy].
  repeat split; try lra.
  - apply py_max_ge.
  - apply py_max_le; lra.
  - apply py_min_ge; lra.
  - apply py_min_le.
  - apply py_max_ge.
  - apply py_max_le; lra.
  - apply py_min_ge; lra.
  - apply py_min_le.
Qed.

Lemma navigation_keeps_dy_in_range_witness :
  let c := mkCanvas 120 700 400 300 1000 5 40 0 in
  dy_in_range (page_up c).
Proof.
  intros c.
  refine (proj1 (proj2 (proj2 (navigation_keeps_dy_in_range
                                 (mkConfig 10 70 60 12 6 [] [] 1) c _ _ _)))).
  - split; discriminate.
  - discriminate.
  - discriminate.
Defined.

Lemma on_scroll_max_dy (cfg : Config) (s : Q) (c : Canvas) :
  max_dy (on_scroll cfg s c) = max_dy c.
Proof.
  unfold on_scroll. cbn [set_dy dy virtual_h height].
  destruct (_ || _); [reflexivity|]. now destruct (_ && _).
Qed.

Lemma scroll_all_max_dy (cfg : Config) (scrolls : list Q) :
  forall c : Canvas,
  max_dy (scroll_all cfg scrolls c) = max_dy c
  /\ scroll_bound (scroll_all cfg scrolls c) = scroll_bound c.
Proof.
  unfold scroll_all.
  induction scrolls as [|s scrolls IH]; intros c; [now split|].
  cbn [fold_left]. destruct (IH (on_scroll cfg s c)) as [-> ->].
  split; [apply on_scroll_max_dy|].
  destruct (on_scroll_geometry cfg s c) as (Ev & Eh & _).
  unfold scroll_bound. now rewrite Ev, Eh.
Qed.

(** X12: after a [Canvas.paint] whose layout returned, every run of scroll
    events keeps [dy] in [[0, max_dy]]: the bound [on_scroll] clamps to is
    the [max_dy] the paint stored.  For the empty run this needs the [dy]
    before the paint not to be negative. *)
Theorem scroll_after_paint_in_range (cfg : Config) (c : Canvas) (w h : Z)
    (scrolls : list Q) :
  scrolls <> [] \/ (0 <= dy c)%Q ->
  let '(o, c') := Canvas_paint cfg (w, h) c in
  o = Return tt ->
  dy_in_range (scroll_all cfg scrolls c')
  /\ max_dy (scroll_all cfg scrolls c') = max_dy c'.
Proof.
  intros Hs. rewrite Canvas_paint_run. cbv zeta.
  destruct (cell_width cfg =? 0); [discriminate|].
  destruct (_ =? 0); [discriminate|].
  intros _.
  set (vh := 2 * canvas_border cfg + _ * cell_height cfg).
  set (md := if 0 <? vh - h then vh - h else 0).
  set (c' := mkCanvas _ _ _ _ _ _ _ _).
  assert (Hmd : md = Z.max 0 (vh - h))
    by (unfold md; destruct (0 <? vh - h) eqn:E;
        [apply Z.ltb_lt in E|apply Z.ltb_ge in E]; lia).
  assert (Hb : scroll_bound c' = inject_Z (max_dy c'))
    by (unfold scroll_bound, c'; cbn [virtual_h height max_dy];
        now rewrite Hmd).
  destruct (scroll_all_max_dy cfg scrolls c') as [Em Eb].
  split; [|exact Em].
  unfold dy_in_range. rewrite Em, <- Hb.
  apply scroll_all_range. destruct Hs as [Hs|Hs]; [now left|right].
  rewrite Hb. unfold c'. cbn [dy max_dy].
  assert (H0 : (0 <= inject_Z md)%Q)
    by (change 0%Q with (inject_Z 0); rewrite <- Zle_Qle; lia).
  split; [now apply py_min_ge|apply py_min_le].
Qed.

Lemma scroll_after_paint_in_range_witness :
  dy_in_range
    (scroll_all (mkConfig 10 70 60 12 6 [] [] 30) [5; -1]%Q
       (snd (Canvas_paint (mkConfig 10 70 60 12 6 [] [] 30) (400, 100)
               (new_canvas 12)))).
Proof.
  assert (Hs : [5; -1]%Q <> [] \/ (0 <= dy (new_canvas 12))%Q)
    by (left; discriminate).
  pose proof (scroll_after_paint_in_range (mkConfig 10 70 60 12 6 [] [] 30)
                (new_canvas 12) 400 100 [5; -1]%Q Hs) as H.
  destruct (Canvas_paint (mkConfig 10 70 60 12 6 [] [] 30) (400, 100)
              (new_canvas 12)) as [o c1] eqn:E.
  assert (Ho : o = Return tt) by (vm_compute in E; congruence).
  exact (proj1 (H Ho)).
Defined.

(** ** The handlers of the scrollbar *)

(** X13: a drag step of the thumb, with [max_dy] not negative.  Before any
    press there is no [start] and the step raises TypeError; with [coef] 0
    it raises ZeroDivisionError; in both cases nothing has changed.
    Otherwise it returns true, [dy] is in [[0, max_dy]], [start] is the new
    point and a repaint is requested. *)
Theorem ScrollObj_drag_clamps (s : ScrollObj) (start : option point)
    (cv : Canvas) (p : point) :
  0 <= max_dy cv ->
  let '(o, ((s', start'), cv')) := ScrollObj_drag p ((s, start), cv) in
  match start with
  | None => o = Raise TypeError /\ cv' = cv /\ start' = start
  | Some _ =>
      if Qeq_bool (coef s) 0
      then o = Raise ZeroDivisionError /\ cv' = cv /\ start' = start
      else o = Return true /\ dy_in_range cv' /\ start' = Some p
           /\ max_dy cv' = max_dy cv
           /\ refreshes cv' = S (refreshes cv)
  end.
Proof.
  intros Hm. unfold ScrollObj_drag, float_floordiv.
  destruct start as [p0|]; [|now repeat split].
  destruct (Qeq_bool (coef s) 0); [now repeat split|].
  assert (H0 : (0 <= inject_Z (max_dy cv))%Q)
    by (change 0%Q with (inject_Z 0); now rewrite <- Zle_Qle).
  split; [reflexivity|]. split; [|now repeat split].
  unfold dy_in_range. cbn [refresh set_dy dy max_dy].
  set (d := (dy cv + inject_Z (Qfloor ((snd p - snd p0) / coef s)))%Q).
  destruct (Qltb 0 d) eqn:E1.
  - apply Qltb_lt in E1.
    destruct (Qltb d (inject_Z (max_dy cv))) eqn:E2.
    + apply Qltb_lt in E2. split; lra.
    + split; lra.
  - destruct (Qltb 0 (inject_Z (max_dy cv))) eqn:E2.
    + apply Qltb_lt in E2. split; lra.
    + split; lra.
Qed.

Lemma ScrollObj_drag_clamps_witness :
  let s := mkScrollObj (388, 0, 400, 300)%Q (394, 65, 400, 155)%Q (3 # 10)
             true true in
  let cv := mkCanvas 50 700 400 300 1000 5 40 0 in
  dy_in_range (snd (snd (ScrollObj_drag (395, 5000)%Q
                           ((s, Some (395, 100)%Q), cv)))).
Proof.
  intros s cv.
  pose proof (ScrollObj_drag_clamps s (Some (395, 100)%Q) cv (395, 5000)%Q
                ltac:(discriminate)) as H.
  change (Qeq_bool (coef s) 0) with false in H. cbv iota in H.
  subst s cv.
  destruct (ScrollObj_drag _ _) as [o [[s' start'] cv']].
  exact (proj1 (proj2 H)).
Defined.

Lemma Qdiv_nonzero (a b : Q) : ~ (a == 0)%Q -> ~ (b == 0)%Q -> ~ (a / b == 0)%Q.
Proof.
  intros Ha Hb E. apply Ha.
  transitivity (b * (a / b))%Q; [symmetry; now apply Qmult_div_r|].
  rewrite E. apply Qmult_0_r.
Qed.

(** X14: a press on a scrollbar that was painted never divides by zero.
    After [ScrollObj.paint] returned, [on_left_pressed] returns for every
    point, whatever the canvas is by then, and it returns true exactly when
    the point is strictly inside the track. *)
Theorem press_after_paint_returns (cfg : Config) (cv cv2 : Canvas)
    (s : ScrollObj) (ctx : list draw) (start : option point) (p : point) :
  let '(o, (s', _)) := ScrollObj_paint cfg cv (s, ctx) in
  o = Return tt ->
  let '(r, ((s2, start2), _)) :=
    ScrollObj_on_left_pressed p ((s', start), cv2) in
  r = Return (in_bbox (scroll_bbox s') p) /\ s2 = s' /\ start2 = Some p.
Proof.
  unfold ScrollObj_paint.
  set (track := (inject_Z (width cv - scroll_hover cfg), 0%Q,
                 inject_Z (width cv), inject_Z (height cv))).
  assert (Hpos : in_bbox track p = true -> 0 < height cv).
  { destruct p as [x y]. unfold track, in_bbox.
    rewrite !andb_true_iff, !Qltb_lt. intros [_ [Hy0 Hy1]].
    assert (H : (inject_Z 0 < inject_Z (height cv))%Q)
      by (change (inject_Z 0) with 0%Q; lra).
    now rewrite <- Zlt_Qlt in H. }
  assert (press : forall k thumb act,
             (in_bbox track p = true -> Qeq_bool k 0 = false) ->
             let '(r, ((s2, start2), _)) :=
               ScrollObj_on_left_pressed p
                 ((mkScrollObj track thumb k act (hover s), start), cv2) in
             r = Return (in_bbox track p)
             /\ s2 = mkScrollObj track thumb k act (hover s)
             /\ start2 = Some p).
  { intros k thumb act Hk. unfold ScrollObj_on_left_pressed.
    cbn [scroll_bbox tbbox coef].
    destruct (in_bbox track p) eqn:Eover; cbn [negb]; [|now repeat split].
    destruct (in_bbox thumb p); [now repeat split|].
    destruct thumb as [[[t0 t1] t2] t3]. unfold float_div.
    rewrite (Hk eq_refl). destruct (Qltb t3 (snd p)); now repeat split. }
  destruct (height cv <? virtual_h cv) eqn:E.
  - apply Z.ltb_lt in E. unfold truediv.
    destruct (virtual_h cv =? 0) eqn:Ev; [discriminate|].
    intros _. apply press. intros Hover. specialize (Hpos Hover).
    apply not_true_iff_false. rewrite Qeq_bool_iff.
    apply Z.eqb_neq in Ev.
    apply Qdiv_nonzero; change 0%Q with (inject_Z 0); rewrite inject_Z_injective; lia.
  - intros _. apply press. reflexivity.
Qed.

Lemma press_after_paint_returns_witness :
  let cfg := mkConfig 10 70 60 12 6 [] [] 1 in
  let cv := mkCanvas 50 700 400 300 1000 5 40 0 in
  fst (ScrollObj_on_left_pressed (395, 200)%Q
         ((fst (snd (ScrollObj_paint cfg cv (new_scroll, []))), None), cv))
  = Return true.
Proof.
  intros cfg cv.
  pose proof (press_after_paint_returns cfg cv cv new_scroll [] None
                (395, 200)%Q) as H.
  destruct (ScrollObj_paint cfg cv (new_scroll, [])) as [o [s' ctx']] eqn:E.
  assert (Ho : o = Return tt) by (vm_compute in E; congruence).
  specialize (H Ho). cbn [fst snd].
  destruct (ScrollObj_on_left_pressed (395, 200)%Q ((s', None), cv))
    as [r [[s2 start2] cv3]].
  cbn [fst]. rewrite (proj1 H). f_equal.
  vm_compute in E. injection E as _ <- _. reflexivity.
Defined.

(** ** The colour grid *)

Section GridFacts.

Variable colorsys_rgb_to_hsv : Q -> Q -> Q -> Q * Q * Q.
Context {Item : Type}.
Variable get_display_color : Item -> Q * Q * Q.
Variable get_color_name : Item -> string.
Variable text_extents : Q -> string -> Q * Q.
Variable cell_border_color : list Q.

Local Abbreviation grid_loop :=
  (ColorGrid_loop colorsys_rgb_to_hsv get_display_color get_color_name
     text_extents cell_border_color).
Local Abbreviation grid_paint :=
  (ColorGrid_paint colorsys_rgb_to_hsv get_display_color get_color_name
     text_extents cell_border_color).
Local Abbreviation grid_cell :=
  (ColorGrid_cell colorsys_rgb_to_hsv get_display_color get_color_name
     text_extents cell_border_color).
Local Abbreviation cells_row_major :=
  (row_major colorsys_rgb_to_hsv get_display_color get_color_name
     text_extents cell_border_color).

Lemma next_cell (m i : Z) :
  0 < m -> 0 <= i ->
  if i mod m + 1 =? m
  then (i + 1) mod m = 0 /\ (i + 1) / m = i / m + 1
  else (i + 1) mod m = i mod m + 1 /\ (i + 1) / m = i / m.
Proof.
  intros Hm Hi.
  pose proof (Z.div_mod i m ltac:(lia)) as D.
  pose proof (Z.mod_pos_bound i m Hm) as B.
  destruct (i mod m + 1 =? m) eqn:E.
  - apply Z.eqb_eq in E.
    assert (Hq : i / m + 1 = (i + 1) / m)
      by (apply (Z.div_unique_pos (i + 1) m (i / m + 1) 0); lia).
    assert (Hr : 0 = (i + 1) mod m)
      by (apply (Z.mod_unique_pos (i + 1) m (i / m + 1) 0); lia).
    lia.
  - apply Z.eqb_neq in E.
    assert (Hq : i / m = (i + 1) / m)
      by (apply (Z.div_unique_pos (i + 1) m (i / m) (i mod m + 1)); lia).
    assert (Hr : i mod m + 1 = (i + 1) mod m)
      by (apply (Z.mod_unique_pos (i + 1) m (i / m) (i mod m + 1)); lia).
    lia.
Qed.

Lemma ColorGrid_loop_row_major (cfg : Config) (m : Z) (items : list Item) :
  0 < m ->
  forall (i : Z) (ctx : list cairo),
  0 <= i ->
  grid_loop cfg m items (i mod m) (i / m) ctx
  = ((i + len items) mod m, (i + len items) / m,
     ctx ++ cells_row_major cfg m items i).
Proof.
  intros Hm. induction items as [|item items IH]; intros i ctx Hi.
  - cbn [ColorGrid_loop row_major]. unfold len. simpl List.length.
    now rewrite Z.add_0_r, app_nil_r.
  - cbn [ColorGrid_loop row_major].
    pose proof (next_cell m i Hm Hi) as N.
    replace (i + len (item :: items)) with (i + 1 + len items)
      by (unfold len; simpl List.length; lia).
    destruct (i mod m + 1 =? m); destruct N as [Nr Nq].
    + rewrite <- Nr, <- Nq, IH by lia. now rewrite <- app_assoc.
    + rewrite <- Nr, <- Nq, IH by lia. now rewrite <- app_assoc.
Qed.

Lemma ColorGrid_loop_one_row (cfg : Config) (m : Z) (items : list Item) :
  m <= 0 ->
  forall (x : Z) (ctx : list cairo),
  0 <= x ->
  fst (grid_loop cfg m items x 0 ctx) = (x + len items, 0).
Proof.
  intros Hm. induction items as [|item items IH]; intros x ctx Hx.
  - cbn [ColorGrid_loop fst]. unfold len. simpl List.length.
    now rewrite Z.add_0_r.
  - cbn [ColorGrid_loop].
    replace (x + 1 =? m) with false by (symmetry; apply Z.eqb_neq; lia).
    rewrite IH by lia. f_equal. unfold len. simpl List.length. lia.
Qed.

(** X15: with [cell_max > 0], [ColorGrid.paint] draws the colours along the
    rows, colour number [i] in column [i mod cell_max] of row
    [i // cell_max], and the add button is painted in the cell where the
    loop of the grid stopped, the next free one. *)
Theorem ColorGrid_paint_row_major (cfg : Config) (cv : Canvas)
    (items : list Item) (ctx : list cairo) :
  0 < cell_max cv -> colors cv = List.length items ->
  grid_paint cfg cv items ctx
  = (add_button_cell cv, ctx ++ cells_row_major cfg (cell_max cv) items 0).
Proof.
  intros Hm Hn. unfold ColorGrid_paint.
  pose proof (ColorGrid_loop_row_major cfg (cell_max cv) items Hm 0 ctx
                (Z.le_refl 0)) as L.
  rewrite Z.mod_0_l, Z.div_0_l in L by lia. rewrite L.
  unfold add_button_cell. rewrite Hn.
  replace (cell_max cv =? 0) with false by (symmetry; apply Z.eqb_neq; lia).
  cbn [Z.add]. fold (len items). do 2 f_equal.
  rewrite Z.mod_eq by lia. reflexivity.
Qed.

(** X16: with [cell_max <= 0], a viewport narrower than a cell and the
    borders, the grid never starts a new row: the loop ends in column
    [len(colors)] of row 0.  For [cell_max = 0] that is the cell of the add
    button; for [cell_max < 0] and at least one colour the add button is
    painted in a row above the first. *)
Theorem ColorGrid_paint_one_row (cfg : Config) (cv : Canvas)
    (items : list Item) (ctx : list cairo) :
  cell_max cv <= 0 -> colors cv = List.length items ->
  fst (grid_paint cfg cv items ctx) = (len items, 0)
  /\ (cell_max cv = 0 -> add_button_cell cv = (len items, 0))
  /\ (cell_max cv < 0 -> items <> [] -> snd (add_button_cell cv) < 0).
Proof.
  intros Hm Hn. unfold ColorGrid_paint.
  rewrite (ColorGrid_loop_one_row cfg (cell_max cv) items Hm 0 ctx
             (Z.le_refl 0)).
  split; [reflexivity|]. unfold add_button_cell. rewrite Hn. fold (len items).
  split.
  - intros ->. cbn [Z.eqb]. f_equal. lia.
  - intros Hneg Hne.
    replace (cell_max cv =? 0) with false by (symmetry; apply Z.eqb_neq; lia).
    cbn [snd].
    assert (Hl : 0 < len items)
      by (destruct items; [congruence|unfold len; simpl List.length; lia]).
    pose proof (Z.div_mod (len items) (cell_max cv) ltac:(lia)) as D.
    pose proof (Z.mod_neg_bound (len items) (cell_max cv) Hneg) as B.
    nia.
Qed.

End GridFacts.

Lemma ColorGrid_paint_row_major_witness :
  fst (ColorGrid_paint Demo.hsv Demo.display_color Demo.color_name
         Demo.extents [] (mkConfig 10 70 60 12 6 [] [] 1)
         (mkCanvas 0 0 400 300 200 5 7 0) [1; 2; 3; 4; 5; 6; 7]%nat [])
  = (2, 1).
Proof.
  rewrite (ColorGrid_paint_row_major Demo.hsv Demo.display_color
             Demo.color_name Demo.extents [] (mkConfig 10 70 60 12 6 [] [] 1)
             (mkCanvas 0 0 400 300 200 5 7 0) [1; 2; 3; 4; 5; 6; 7]%nat []
             eq_refl eq_refl).
  reflexivity.
Defined.

Lemma ColorGrid_paint_one_row_witness :
  fst (ColorGrid_paint Demo.hsv Demo.display_color Demo.color_name
         Demo.extents [] (mkConfig 10 70 60 12 6 [] [] 1)
         (mkCanvas 0 0 50 300 20 0 3 0) [1; 2; 3]%nat [])
  = (3, 0).
Proof.
  refine (proj1 (ColorGrid_paint_one_row Demo.hsv Demo.display_color
                   Demo.color_name Demo.extents []
                   (mkConfig 10 70 60 12 6 [] [] 1)
                   (mkCanvas 0 0 50 300 20 0 3 0) [1; 2; 3]%nat [] _ _)).
  - discriminate.
  - reflexivity.
Defined.

(** ** The dispatch of pointer events *)

Lemma zobj_set_hover_same (z : zobj) :
  zobj_set_hover z (CanvasObj.hover (zobj_view z)) = z.
Proof. destruct z as [[b c a h]|[[b t k a h] st]]; reflexivity. Qed.

Lemma zobj_view_set_hover (z : zobj) (b : bool) :
  zobj_view (zobj_set_hover z b) = CanvasObj.set_hover (zobj_view z) b.
Proof. destruct z as [o|[s st]]; reflexivity. Qed.

(** What one object does with a move event. *)
Lemma zobj_on_move_cases (p : point) (z : zobj) (scr : CanvasObj.Screen) :
  let '(r, (z', scr')) := zobj_on_move p z scr in
  r = is_hit p z
  /\ z' = (if is_hit p z then zobj_set_hover z true else leave z)
  /\ snd scr' = (if is_hit p z then CanvasObj.cursor (zobj_view z)
                 else snd scr)
  /\ fst scr' = (if CanvasObj.active (zobj_view z)
                    && xorb (CanvasObj.hover (zobj_view z))
                         (CanvasObj.is_over (zobj_view z) p)
                 then refresh (fst scr) else fst scr).
Proof.
  unfold zobj_on_move, CanvasObj.on_move, is_hit, leave.
  destruct (CanvasObj.active (zobj_view z)) eqn:Ea; cbn [andb].
  - destruct (CanvasObj.is_over (zobj_view z) p) eqn:Eo;
      destruct (CanvasObj.hover (zobj_view z)) eqn:Eh;
      cbn [negb xorb fst snd CanvasObj.hover CanvasObj.set_hover];
      repeat split; try (now rewrite Eh);
      try (rewrite <- Eh; apply zobj_set_hover_same).
  - cbn [fst snd]. repeat split. apply zobj_set_hover_same.
Qed.

Lemma is_hit_set_hover (p : point) (z : zobj) (b : bool) :
  is_hit p (zobj_set_hover z b) = is_hit p z.
Proof. unfold is_hit. now rewrite zobj_view_set_hover. Qed.

Lemma zobj_set_hover_twice (z : zobj) (a b : bool) :
  zobj_set_hover (zobj_set_hover z a) b = zobj_set_hover z b.
Proof. destruct z as [o|[s st]]; reflexivity. Qed.

Lemma move_loop_hit (p : point) (pre : list zobj) (z : zobj)
    (post : list zobj) :
  Forall (fun x => is_hit p x = false) pre -> is_hit p z = true ->
  forall scr : CanvasObj.Screen,
  fst (move_loop p (pre ++ z :: post) scr)
  = map leave pre ++ zobj_set_hover z true :: post
  /\ snd (snd (move_loop p (pre ++ z :: post) scr))
     = CanvasObj.cursor (zobj_view z).
Proof.
  intros Hpre Hz. induction Hpre as [|x pre Hx _ IH]; intros scr.
  - cbn [app move_loop map].
    pose proof (zobj_on_move_cases p z scr) as C.
    destruct (zobj_on_move p z scr) as [r [z' scr']].
    rewrite Hz in C. destruct C as (-> & -> & Hc & _). now split.
  - cbn [app move_loop map].
    pose proof (zobj_on_move_cases p x scr) as C.
    destruct (zobj_on_move p x scr) as [r [x' scr']].
    rewrite Hx in C. destruct C as (-> & -> & _ & _).
    specialize (IH scr').
    destruct (move_loop p (pre ++ z :: post) scr') as [rest' scr''].
    cbn [fst snd] in *. destruct IH as [-> ->]. now split.
Qed.

Lemma move_loop_miss (p : point) (objs : list zobj) :
  Forall (fun x => is_hit p x = false) objs ->
  forall scr : CanvasObj.Screen,
  fst (move_loop p objs scr) = map leave objs
  /\ snd (snd (move_loop p objs scr)) = snd scr.
Proof.
  induction 1 as [|x objs Hx _ IH]; intros scr; [now split|].
  cbn [move_loop map].
  pose proof (zobj_on_move_cases p x scr) as C.
  destruct (zobj_on_move p x scr) as [r [x' scr']].
  rewrite Hx in C. destruct C as (-> & -> & Hc & _).
  specialize (IH scr').
  destruct (move_loop p objs scr') as [rest' scr''].
  cbn [fst snd] in *. destruct IH as [-> ->]. now split.
Qed.

(** X17: a move event while no object is pressed goes down [z_order] to the
    first active object with the point inside its box.  That object gets
    [hover] and its cursor is shown; the active objects above it lose
    [hover]; the objects below it are not visited and keep theirs.  When no
    active object has the point inside, every active object loses [hover]
    and the cursor stays. *)
Theorem Canvas_on_move_topmost (st : Stage) (p : point) :
  left_pressed st = None ->
  let '(o, st') := Canvas_on_move p st in
  o = Return tt /\ left_pressed st' = None
  /\ (forall pre z post,
         z_order st = pre ++ z :: post ->
         Forall (fun x => is_hit p x = false) pre -> is_hit p z = true ->
         z_order st' = map leave pre ++ zobj_set_hover z true :: post
         /\ snd (screen st') = CanvasObj.cursor (zobj_view z))
  /\ (Forall (fun x => is_hit p x = false) (z_order st) ->
      z_order st' = map leave (z_order st)
      /\ snd (screen st') = snd (screen st)).
Proof.
  intros Hlp. unfold Canvas_on_move. rewrite Hlp.
  destruct (move_loop p (z_order st) (screen st)) as [objs scr] eqn:E.
  split; [reflexivity|]. split; [reflexivity|]. cbn [z_order screen]. split.
  - intros pre z post Hz Hpre Hhit.
    destruct (move_loop_hit p pre z post Hpre Hhit (screen st)) as [H1 H2].
    rewrite <- Hz, E in H1, H2. now split.
  - intros Hmiss.
    destruct (move_loop_miss p (z_order st) Hmiss (screen st)) as [H1 H2].
    rewrite E in H1, H2. now split.
Qed.

Lemma Canvas_on_move_topmost_witness :
  z_order (snd (Canvas_on_move (30, 30)%Q
                  (mkStage Demo.objects None (Demo.viewport, "arrow"%string))))
  = [Plain Demo.stale_logo;
     Plain (CanvasObj.set_hover Demo.button true);
     Plain Demo.background].
Proof.
  pose proof (Canvas_on_move_topmost
                (mkStage Demo.objects None (Demo.viewport, "arrow"%string))
                (30, 30)%Q eq_refl) as H.
  destruct (Canvas_on_move (30, 30)%Q
              (mkStage Demo.objects None (Demo.viewport, "arrow"%string)))
    as [o st'].
  destruct H as (_ & _ & H & _).
  refine (proj1 (H [Plain Demo.stale_logo] (Plain Demo.button)
                   [Plain Demo.background] eq_refl _ eq_refl)).
  repeat constructor.
Defined.

Lemma zobj_on_move_again (p : point) (z z' : zobj)
    (scr scr' : CanvasObj.Screen) (r : bool) :
  zobj_on_move p z scr = (r, (z', scr')) ->
  zobj_on_move p z' scr' = (r, (z', scr')).
Proof.
  intros E.
  pose proof (zobj_on_move_cases p z scr) as C. rewrite E in C.
  destruct C as (Hr & Hz & Hc & Hf).
  pose proof (zobj_on_move_cases p z' scr') as C'.
  destruct (zobj_on_move p z' scr') as [r2 [z2 scr2]].
  destruct C' as (Hr2 & Hz2 & Hc2 & Hf2).
  assert (Hhit : is_hit p z' = is_hit p z).
  { rewrite Hz. unfold leave.
    destruct (is_hit p z) eqn:Eh; [now rewrite is_hit_set_hover|].
    destruct (CanvasObj.active (zobj_view z));
      [now rewrite is_hit_set_hover|exact Eh]. }
  assert (Hview : CanvasObj.active (zobj_view z')
                  && xorb (CanvasObj.hover (zobj_view z'))
                       (CanvasObj.is_over (zobj_view z') p) = false
                  /\ (if is_hit p z then zobj_set_hover z' true else leave z')
                     = z'
                  /\ CanvasObj.cursor (zobj_view z')
                     = CanvasObj.cursor (zobj_view z)).
  { rewrite Hz. unfold leave, is_hit, CanvasObj.is_over in *.
    destruct (CanvasObj.active (zobj_view z)) eqn:Ea; cbn [andb] in *.
    - destruct (in_bbox (CanvasObj.bbox (zobj_view z)) p) eqn:Eo;
        rewrite ?zobj_view_set_hover;
        cbn [CanvasObj.active CanvasObj.set_hover CanvasObj.hover
             CanvasObj.bbox CanvasObj.cursor];
        rewrite ?Ea, ?Eo; cbn [andb xorb];
        rewrite ?zobj_set_hover_twice; now repeat split.
    - rewrite Ea. cbn [andb]. now repeat split. }
  destruct Hview as (Hx & Hsame & Hcur).
  rewrite Hhit in Hr2, Hz2, Hc2. rewrite Hx in Hf2. rewrite Hsame in Hz2.
  subst r2 z2. rewrite <- Hr. f_equal. f_equal.
  destruct scr2 as [a b], scr' as [a' b']. cbn [fst snd] in *.
  subst a. f_equal. rewrite Hc2, Hc, Hcur.
  now destruct (is_hit p z).
Qed.

Lemma move_loop_again (p : point) (objs : list zobj) :
  forall (scr : CanvasObj.Screen) objs' scr',
  move_loop p objs scr = (objs', scr') ->
  move_loop p objs' scr' = (objs', scr').
Proof.
  induction objs as [|z objs IH]; intros scr objs' scr' E.
  - cbn in E. injection E as <- <-. reflexivity.
  - cbn [move_loop] in E.
    destruct (zobj_on_move p z scr) as [r [z1 scr1]] eqn:Ez.
    apply zobj_on_move_again in Ez.
    destruct r.
    + injection E as <- <-. cbn [move_loop]. now rewrite Ez.
    + destruct (move_loop p objs scr1) as [rest1 scr2] eqn:El.
      injection E as <- <-.
      pose proof (IH _ _ _ El) as IH'.
      (* the first object, already settled, does not change the screen *)
      assert (Ez2 : zobj_on_move p z1 scr2 = (false, (z1, scr2))).
      { pose proof (zobj_on_move_cases p z1 scr1) as C1. rewrite Ez in C1.
        destruct C1 as (Hr & Hz & Hc & Hf).
        pose proof (zobj_on_move_cases p z1 scr2) as C2.
        destruct (zobj_on_move p z1 scr2) as [r2 [z2 s2]].
        destruct C2 as (Hr2 & Hz2 & Hc2 & Hf2).
        rewrite <- Hr in *. cbn iota in *.
        destruct (CanvasObj.active (zobj_view z1)
                  && xorb (CanvasObj.hover (zobj_view z1))
                       (CanvasObj.is_over (zobj_view z1) p)).
        - exfalso. destruct scr1 as [c1 k1]. cbn [fst] in Hf.
          apply (f_equal refreshes) in Hf. cbn in Hf. lia.
        - subst r2. rewrite <- Hz in Hz2. subst z2.
          destruct s2 as [a b], scr2 as [a' b']. cbn [fst snd] in *.
          now subst. }
      cbn [move_loop]. rewrite Ez2, IH'. reflexivity.
Qed.

(** X18: a second move event at the same point, with no object pressed,
    changes nothing: the objects, the cursor and the count of repaint
    requests are those the first event left. *)
Theorem Canvas_on_move_idempotent (st : Stage) (p : point) :
  left_pressed st = None ->
  Canvas_on_move p (snd (Canvas_on_move p st))
  = (Return tt, snd (Canvas_on_move p st)).
Proof.
  intros Hlp. unfold Canvas_on_move at 2 3. rewrite Hlp.
  destruct (move_loop p (z_order st) (screen st)) as [objs scr] eqn:E.
  cbn [snd]. unfold Canvas_on_move. cbn [left_pressed z_order screen].
  now rewrite (move_loop_again p _ _ _ _ E).
Qed.

Lemma Canvas_on_move_idempotent_witness :
  let st := mkStage Demo.objects None (Demo.viewport, "arrow"%string) in
  refreshes (fst (screen (snd (Canvas_on_move (30, 30)%Q
                                 (snd (Canvas_on_move (30, 30)%Q st))))))
  = refreshes (fst (screen (snd (Canvas_on_move (30, 30)%Q st)))).
Proof.
  intros st.
  now rewrite (Canvas_on_move_idempotent st (30, 30)%Q eq_refl).
Defined.

Lemma ScrollObj_press_accepts (p : point) (s : ScrollObj)
    (start : option point) (cv : Canvas) :
  Qeq_bool (coef s) 0 = false ->
  exists cv',
    ScrollObj_on_left_pressed p ((s, start), cv)
    = (Return (in_bbox (scroll_bbox s) p), ((s, Some p), cv')).
Proof.
  intros Hk. unfold ScrollObj_on_left_pressed.
  destruct (in_bbox (scroll_bbox s) p); cbn [negb]; [|now exists cv].
  destruct (in_bbox (tbbox s) p); [now exists cv|].
  destruct (tbbox s) as [[[t0 t1] t2] t3]. unfold float_div. rewrite Hk.
  destruct (Qltb t3 (snd p)); eexists; reflexivity.
Qed.

Lemma press_loop_first_over (p : point) (objs : list zobj) :
  Forall can_divide objs ->
  forall (i : nat) (cv : Canvas),
  exists objs' cv',
    press_loop p objs i cv
    = (Return (option_map (Nat.add i) (first_over p objs)), (objs', cv'))
    /\ map zobj_view objs' = map zobj_view objs.
Proof.
  induction 1 as [|z objs Hz _ IH]; intros i cv.
  - exists [], cv. now split.
  - assert (Hshift : option_map (Nat.add (S i)) (first_over p objs)
                     = option_map (Nat.add i)
                         (option_map S (first_over p objs)))
      by (destruct (first_over p objs); cbn [option_map]; f_equal; lia).
    destruct z as [o|[s start]]; cbn [press_loop first_over zobj_view].
    + unfold CanvasObj.on_left_pressed.
      destruct (CanvasObj.is_over o p).
      * exists (Plain o :: objs), cv. cbn [option_map].
        now rewrite Nat.add_0_r.
      * destruct (IH (S i) cv) as (objs' & cv' & E & Hv).
        exists (Plain o :: objs'), cv'. rewrite E, Hshift.
        split; [reflexivity|]. cbn [map]. now rewrite Hv.
    + destruct (ScrollObj_press_accepts p s start cv Hz) as (cv1 & E1).
      unfold Scroll in *. rewrite E1.
      unfold CanvasObj.is_over, ScrollObj_as_obj.
      cbn [fst CanvasObj.bbox].
      destruct (in_bbox (scroll_bbox s) p).
      * exists (Scrollbar (s, Some p) :: objs), cv1. cbn [option_map].
        now rewrite Nat.add_0_r.
      * destruct (IH (S i) cv1) as (objs' & cv' & E & Hv).
        exists (Scrollbar (s, Some p) :: objs'), cv'. rewrite E, Hshift.
        split; [reflexivity|]. cbn [map]. now rewrite Hv.
Qed.

Lemma Canvas_on_left_pressed_run (st : Stage) (p : point) :
  z_order st <> [] -> Forall can_divide (z_order st) ->
  exists objs' cv',
    Canvas_on_left_pressed p st
    = (Return tt,
       mkStage objs' (first_over p (z_order st)) (cv', snd (screen st)))
    /\ map zobj_view objs' = map zobj_view (z_order st).
Proof.
  intros Hne Hs. unfold Canvas_on_left_pressed.
  destruct (press_loop_first_over p (z_order st) Hs 0 (fst (screen st)))
    as (objs' & cv' & E & Hv).
  exists objs', cv'. split; [|exact Hv].
  destruct (z_order st) as [|z objs] eqn:Ez; [congruence|].
  rewrite E. destruct (first_over p (z :: objs)); reflexivity.
Qed.

(** X19: a press is taken by the first object of [z_order] whose box has
    the point strictly inside, active or not: [left_pressed] is that object,
    or [None] when there is none, whatever it was before.  The boxes, the
    [active] and [hover] flags and the cursor are as before.  (Scrollbars
    are taken with a [coef] that is not 0, as a paint leaves it.) *)
Theorem Canvas_on_left_pressed_topmost (st : Stage) (p : point) :
  z_order st <> [] -> Forall can_divide (z_order st) ->
  let '(o, st') := Canvas_on_left_pressed p st in
  o = Return tt
  /\ left_pressed st' = first_over p (z_order st)
  /\ map zobj_view (z_order st') = map zobj_view (z_order st)
  /\ snd (screen st') = snd (screen st).
Proof.
  intros Hne Hs.
  destruct (Canvas_on_left_pressed_run st p Hne Hs) as (objs' & cv' & E & Hv).
  rewrite E. now repeat split.
Qed.

Lemma Canvas_on_left_pressed_topmost_witness :
  left_pressed
    (snd (Canvas_on_left_pressed (250, 250)%Q
            (mkStage Demo.objects (Some 1%nat)
               (Demo.viewport, "arrow"%string))))
  = Some 0%nat.
Proof.
  pose proof (Canvas_on_left_pressed_topmost
                (mkStage Demo.objects (Some 1%nat)
                   (Demo.viewport, "arrow"%string))
                (250, 250)%Q ltac:(discriminate)
                ltac:(repeat constructor)) as H.
  destruct (Canvas_on_left_pressed (250, 250)%Q
              (mkStage Demo.objects (Some 1%nat)
                 (Demo.viewport, "arrow"%string))) as [o st'].
  exact (proj1 (proj2 H)).
Defined.

Lemma first_over_last (p : point) (objs : list zobj) (z : zobj) :
  CanvasObj.is_over (zobj_view z) p = true ->
  exists k, first_over p (objs ++ [z]) = Some k /\ (k <= List.length objs)%nat.
Proof.
  intros Hz. induction objs as [|x objs IH]; cbn [app first_over].
  - rewrite Hz. exists 0%nat. now split.
  - destruct (CanvasObj.is_over (zobj_view x) p).
    + exists 0%nat. split; [reflexivity|lia].
    + destruct IH as (k & -> & Hk). exists (S k). split; [reflexivity|].
      cbn [List.length]. lia.
Qed.

(** X20: with the background last in [z_order] and painted for the
    viewport, a press strictly inside the viewport is always taken by some
    object, the background if no other; a press on the edge of the viewport
    is not taken by the background. *)
Theorem press_inside_viewport_is_taken (objs : list zobj)
    (o : CanvasObj.t) (cv : Canvas) (lp : option nat)
    (scr : CanvasObj.Screen) (p : point) :
  Forall can_divide objs ->
  (0 < fst p /\ fst p < inject_Z (width cv))%Q ->
  (0 < snd p /\ snd p < inject_Z (height cv))%Q ->
  let bg := Plain (BackgroundObj_paint cv o) in
  (exists k,
      left_pressed (snd (Canvas_on_left_pressed p
                           (mkStage (objs ++ [bg]) lp scr))) = Some k
      /\ (k <= List.length objs)%nat)
  /\ forall y : Q,
       CanvasObj.on_left_pressed (0%Q, y) (BackgroundObj_paint cv o) = false.
Proof.
  intros Hs Hx Hy bg. split.
  - assert (Hover : CanvasObj.is_over (zobj_view bg) p = true).
    { destruct p as [x y]. unfold bg, CanvasObj.is_over, in_bbox.
      cbn [zobj_view BackgroundObj_paint CanvasObj.bbox fst snd] in *.
      rewrite !andb_true_iff, !Qltb_lt. tauto. }
    destruct (first_over_last p objs bg Hover) as (k & Hk & Hle).
    destruct (Canvas_on_left_pressed_run (mkStage (objs ++ [bg]) lp scr) p)
      as (objs' & cv' & E & _).
    + cbn [z_order]. now destruct objs.
    + cbn [z_order]. apply Forall_app. split; [exact Hs|].
      repeat constructor.
    + rewrite E. cbn [snd left_pressed z_order]. exists k. now split.
  - intros y. unfold CanvasObj.on_left_pressed, CanvasObj.is_over.
    cbn [BackgroundObj_paint CanvasObj.bbox]. reflexivity.
Qed.

Lemma press_inside_viewport_is_taken_witness :
  exists k,
    left_pressed
      (snd (Canvas_on_left_pressed (350, 10)%Q
              (mkStage ([Plain Demo.stale_logo; Plain Demo.button]
                        ++ [Plain (BackgroundObj_paint Demo.viewport
                                     Demo.background)])
                 None (Demo.viewport, "arrow"%string)))) = Some k
    /\ (k <= 2)%nat.
Proof.
  refine (proj1 (press_inside_viewport_is_taken
                   [Plain Demo.stale_logo; Plain Demo.button]
                   Demo.background Demo.viewport None
                   (Demo.viewport, "arrow"%string) (350, 10)%Q _ _ _)).
  - repeat constructor.
  - split; reflexivity.
  - split; reflexivity.
Defined.

(** *** The round trips on the small document *)

Lemma demo_new_history_inv : history_inv (@new_history Demo.action).
Proof. split; [unfold len; simpl; lia|]. now exists [], None. Defined.

Lemma demo_append_returns (c : nat) : all_return Demo.call [Demo.Append c].
Proof. intros a w [<-|[]]. reflexivity. Defined.

Lemma demo_add_color_redo (ts : list nat) (t : transaction Demo.action) :
  In t (map Demo.add_color ts) ->
  exists l, snd t = Some l /\ l <> [] /\ all_return Demo.call l.
Proof.
  intros Ht. apply in_map_iff in Ht. destruct Ht as (c & <- & _).
  exists [Demo.Append c]. split; [reflexivity|].
  split; [discriminate|apply demo_append_returns].
Defined.

Lemma undo_redo_round_trip_witness :
  let h1 := fst (snd (add_transaction Demo.reflect_transaction
                        (Demo.add_color 7) (new_history, Demo.empty))) in
  let w1 := snd (snd (add_transaction Demo.reflect_transaction
                        (Demo.add_color 7) (new_history, Demo.empty))) in
  fst (snd ((undo Demo.call Demo.reflect_transaction ;;
             redo Demo.call Demo.reflect_transaction) (h1, w1))) = h1.
Proof.
  pose proof (undo_redo_round_trip Demo.call Demo.reflect_transaction
                new_history Demo.empty [Demo.DropLast] [Demo.Append 7%nat]
                demo_new_history_inv demo_drop_last_returns
                (demo_append_returns 7) ltac:(discriminate)) as H.
  change (Some [Demo.DropLast], Some [Demo.Append 7%nat])
    with (Demo.add_color 7) in H.
  destruct (add_transaction Demo.reflect_transaction (Demo.add_color 7)
              (new_history, Demo.empty)) as [o1 [h1 w1]].
  cbn [fst snd].
  destruct ((undo Demo.call Demo.reflect_transaction ;;
             redo Demo.call Demo.reflect_transaction) (h1, w1))
    as [o2 [h2 w2]].
  exact (proj2 (proj2 H)).
Defined.

Lemma undo_of_missing_actions_raises_witness :
  fst ((add_transaction Demo.reflect_transaction (None, Some [Demo.Append 1%nat]) ;;
        undo Demo.call Demo.reflect_transaction)
         (new_history, Demo.empty))
  = Raise TypeError.
Proof.
  pose proof (undo_of_missing_actions_raises Demo.call
                Demo.reflect_transaction new_history Demo.empty
                (Some [Demo.Append 1%nat]) demo_new_history_inv) as H.
  unfold bind.
  match type of H with
  | context [add_transaction ?r ?t ?s] =>
      change (add_transaction Demo.reflect_transaction
                (None, Some [Demo.Append 1%nat]) (new_history, Demo.empty))
        with (add_transaction r t s);
      destruct (add_transaction r t s) as [o1 [h1 w1]]
  end.
  destruct H as (Ho & _ & Hu). subst o1. cbv beta iota.
  now rewrite Hu.
Defined.

Lemma saved_mark_after_edits_witness :
  is_saved (fst (snd (add_transactions Demo.reflect_transaction
                        [Demo.add_color 9]
                        (set_saved Demo.one_color, Demo.one_color_world))))
  = false.
Proof.
  pose proof (proj1 (proj2 (saved_mark_after_edits Demo.call
                              Demo.reflect_transaction Demo.one_color
                              Demo.one_color_world demo_one_color_inv))
                [Demo.add_color 9] ltac:(discriminate)) as H.
  destruct (add_transactions Demo.reflect_transaction [Demo.add_color 9]
              (set_saved Demo.one_color, Demo.one_color_world))
    as [o [h' w']].
  exact (proj2 H).
Defined.

Lemma saved_mark_after_branch_witness :
  is_saved
    (fst (snd (add_transaction Demo.reflect_transaction (Demo.add_color 9)
                 (snd (undo Demo.call Demo.reflect_transaction
                         (set_saved Demo.one_color, Demo.one_color_world))))))
  = true.
Proof.
  pose proof (saved_mark_after_branch Demo.call Demo.reflect_transaction
                Demo.one_color Demo.one_color_world (Demo.add_color 9)
                demo_one_color_inv eq_refl) as H.
  destruct (undo Demo.call Demo.reflect_transaction
              (set_saved Demo.one_color, Demo.one_color_world))
    as [o1 [h1 w1]] eqn:E.
  assert (Ho : o1 = Return tt) by (vm_compute in E; congruence).
  cbn [snd].
  destruct (add_transaction Demo.reflect_transaction (Demo.add_color 9)
              (h1, w1)) as [o2 [h2 w2]].
  exact (proj1 (proj2 (H Ho))).
Defined.

Lemma add_undo_redo_round_trip_witness :
  index
    (fst (snd ((add_transactions Demo.reflect_transaction
                  (map Demo.add_color [1; 2; 3]%nat) ;;
                undo_times Demo.call Demo.reflect_transaction 2 ;;
                redo_times Demo.call Demo.reflect_transaction 2)
                 (new_history, Demo.empty))))
  = 3.
Proof.
  pose proof (add_undo_redo_round_trip Demo.call Demo.reflect_transaction
                (map Demo.add_color [1; 2; 3]%nat) 2 Demo.empty
                ltac:(simpl; lia)
                (demo_add_color_returns [1; 2; 3]%nat)
                (demo_add_color_redo [1; 2; 3]%nat)) as H.
  destruct ((add_transactions Demo.reflect_transaction
               (map Demo.add_color [1; 2; 3]%nat) ;;
             undo_times Demo.call Demo.reflect_transaction 2 ;;
             redo_times Demo.call Demo.reflect_transaction 2)
              (new_history, Demo.empty)) as [o [h w]].
  exact (proj1 (proj2 H)).
Defined.

(** ** Colour labels on doubles *)

Section RoundAux.
Import SpecFloat.

Lemma digits2_pos_size (m : positive) : digits2_pos m = Pos.size m.
Proof. induction m; simpl; congruence. Qed.

Lemma digits_le (m : positive) (k : Z) :
  0 <= k -> Z.pos m < 2 ^ k -> Z.pos (digits2_pos m) <= k.
Proof.
  intros Hk Hlt. rewrite digits2_pos_size.
  pose proof (Pos.size_le m) as Hs.
  assert (H2 : 2 ^ Z.pos (Pos.size m) <= 2 * Z.pos m).
  { change 2 with (Z.pos 2) at 1. rewrite <- Pos2Z.inj_pow.
    change (2 * Z.pos m) with (Z.pos m~0). now apply Pos2Z.pos_le_pos. }
  destruct (Z_le_gt_dec (Z.pos (Pos.size m)) k) as [|Hgt]; [assumption|].
  exfalso.
  assert (2 ^ (k + 1) <= 2 ^ Z.pos (Pos.size m))
    by (apply Z.pow_le_mono_r; lia).
  rewrite Z.pow_add_r in H by lia. lia.
Qed.

(** What [n] steps of [shr_1] leave of a mantissa: the quotient, and flags
    that are set only when the division is not exact. *)
Definition shr_inv (M : Z) (k : Z) (r : shr_record) : Prop :=
  shr_m r = M / 2 ^ k
  /\ (shr_r r || shr_s r = true -> M mod 2 ^ k <> 0).

Lemma shr_1_inv (M k : Z) (r : shr_record) :
  0 <= M -> 0 <= k -> shr_inv M k r -> shr_inv M (k + 1) (shr_1 r).
Proof.
  intros HM Hk [Hm Hf]. destruct r as [m rb sb]. cbn [shr_m shr_r shr_s] in *.
  assert (Hpow : 0 < 2 ^ k) by (apply Z.pow_pos_nonneg; lia).
  assert (Hm0 : 0 <= m) by (subst m; apply Z.div_pos; lia).
  assert (Hdiv : M / 2 ^ (k + 1) = m / 2)
    by (rewrite Z.pow_add_r, Z.pow_1_r, <- Z.div_div, Hm by lia; reflexivity).
  assert (Hmod : m mod 2 <> 0 \/ M mod 2 ^ k <> 0 -> M mod 2 ^ (k + 1) <> 0).
  { intros H E. rewrite Z.pow_add_r, Z.pow_1_r in E by lia.
    rewrite Z.rem_mul_r in E by lia. rewrite <- Hm in E.
    pose proof (Z.mod_pos_bound M (2 ^ k) Hpow).
    pose proof (Z.mod_pos_bound m 2 ltac:(lia)). nia. }
  unfold shr_inv. rewrite Hdiv.
  destruct m as [|p|p]; [| |lia].
  - cbn. split; [reflexivity|]. intros H. apply Hmod. right. apply Hf.
    exact H.
  - destruct p as [p|p|]; cbn [shr_1 shr_m shr_r shr_s].
    + split; [rewrite Pos2Z.inj_xI; apply Z.div_unique with 1; lia|].
      intros _. apply Hmod. left. rewrite Pos2Z.inj_xI.
      rewrite Z.add_comm, Z.mul_comm, Z.mod_add by lia. discriminate.
    + split; [rewrite Pos2Z.inj_xO; apply Z.div_unique with 0; lia|].
      intros H. apply Hmod. right. apply Hf. exact H.
    + split; [reflexivity|]. intros _. apply Hmod. left. discriminate.
Qed.

Lemma iter_shr_inv (p : positive) :
  forall (M k : Z) (r : shr_record),
  0 <= M -> 0 <= k -> shr_inv M k r ->
  shr_inv M (k + Z.pos p) (iter_pos shr_1 p r).
Proof.
  induction p as [p IH|p IH|]; intros M k r HM Hk H; cbn [iter_pos].
  - replace (k + Z.pos p~1) with (k + 1 + Z.pos p + Z.pos p) by lia.
    apply IH; [lia|lia|]. apply IH; [lia|lia|]. now apply shr_1_inv.
  - replace (k + Z.pos p~0) with (k + Z.pos p + Z.pos p) by lia.
    apply IH; [lia|lia|]. now apply IH.
  - now apply shr_1_inv.
Qed.

Lemma Zdigits2_le (M k : Z) :
  0 <= M -> 0 <= k -> M < 2 ^ k -> Zdigits2 M <= k.
Proof.
  intros HM Hk Hlt. destruct M as [|m|m]; [exact Hk| |lia].
  now apply digits_le.
Qed.

Lemma pos_lt_pow_digits (m : positive) :
  Z.pos m < 2 ^ Z.pos (digits2_pos m).
Proof.
  rewrite digits2_pos_size. change 2 with (Z.pos 2).
  rewrite <- Pos2Z.inj_pow. apply Pos2Z.pos_lt_pos, Pos.size_gt.
Qed.

Local Abbreviation fexp64 := (fexp FloatOps.prec FloatOps.emax).

Lemma fexp64_eq (k : Z) : fexp64 k = Z.max (k - 53) (-1074).
Proof. reflexivity. Qed.

(** One alignment step on an exact mantissa: the exponent reached and what
    is left of the mantissa. *)
Lemma shr_fexp_exact (M E : Z) :
  0 <= M ->
  let '(mrs, e') := shr_fexp FloatOps.prec FloatOps.emax M E loc_Exact in
  e' = Z.max E (fexp64 (Zdigits2 M + E)) /\ shr_inv M (e' - E) mrs.
Proof.
  intros HM. unfold shr_fexp, shr. cbn [shr_record_of_loc].
  set (f := fexp64 (Zdigits2 M + E)).
  assert (H0 : shr_inv M 0 (Build_shr_record M false false))
    by (split; [cbn; now rewrite Z.div_1_r|discriminate]).
  destruct (f - E) as [|p|p] eqn:En.
  - split; [lia|]. replace (E - E) with 0 by lia. exact H0.
  - split; [lia|]. replace (E + Z.pos p - E) with (0 + Z.pos p) by lia.
    apply iter_shr_inv; [exact HM|lia|exact H0].
  - split; [lia|]. replace (E - E) with 0 by lia. exact H0.
Qed.

(** Rounding to nearest after a shift never passes a bound that is itself a
    multiple of the step. *)
Lemma round_nearest_even_le (M k K : Z) (mrs : shr_record) :
  0 <= M -> 0 <= k -> shr_inv M k mrs -> M <= K * 2 ^ k ->
  0 <= round_nearest_even (shr_m mrs) (loc_of_shr_record mrs) <= K.
Proof.
  intros HM Hk [Hm Hf] HK.
  assert (Hpow : 0 < 2 ^ k) by (apply Z.pow_pos_nonneg; lia).
  pose proof (Z.div_mod M (2 ^ k) ltac:(lia)) as D.
  pose proof (Z.mod_pos_bound M (2 ^ k) Hpow) as B.
  assert (Hq : 0 <= M / 2 ^ k) by (apply Z.div_pos; lia).
  assert (Hle : M / 2 ^ k <= K) by nia.
  assert (Hup : M mod 2 ^ k <> 0 -> M / 2 ^ k + 1 <= K) by nia.
  destruct mrs as [m rb sb]. cbn [shr_m shr_r shr_s] in *. subst m.
  destruct rb, sb; cbn [loc_of_shr_record round_nearest_even];
    try (destruct (Z.even (M / 2 ^ k))); split; try lia;
    apply Hup, Hf; reflexivity.
Qed.

(** The product of the specification rounded to a double stays below 255
    when the exact product is. *)
Lemma binary_round_aux_le_255 (M E : Z) :
  0 < M -> E <= 0 -> M <= 255 * 2 ^ (- E) ->
  binary_round_aux FloatOps.prec FloatOps.emax false M E loc_Exact
  = S754_zero false
  \/ exists m2 e2,
       binary_round_aux FloatOps.prec FloatOps.emax false M E loc_Exact
       = S754_finite false m2 e2
       /\ e2 <= 0 /\ Z.pos m2 <= 255 * 2 ^ (- e2).
Proof.
  intros HM HE HB. unfold binary_round_aux.
  assert (Hbelow : forall N e, 0 <= N -> e <= 0 -> N <= 255 * 2 ^ (- e) ->
                               fexp64 (Zdigits2 N + e) <= 0).
  { intros N e HN He HNb. rewrite fexp64_eq.
    assert (Zdigits2 N <= 8 - e).
    { apply Zdigits2_le; [lia|lia|].
      assert (0 < 2 ^ (- e)) by (apply Z.pow_pos_nonneg; lia).
      replace (8 - e) with (8 + - e) by lia. rewrite Z.pow_add_r by lia.
      change (2 ^ 8) with 256. lia. }
    lia. }
  pose proof (shr_fexp_exact M E ltac:(lia)) as S1.
  destruct (shr_fexp FloatOps.prec FloatOps.emax M E loc_Exact) as [mrs' e'].
  destruct S1 as [He' Hinv'].
  pose proof (Hbelow M E ltac:(lia) HE HB) as Hf1.
  assert (He'0 : e' <= 0) by lia.
  assert (HK : M <= 255 * 2 ^ (- e') * 2 ^ (e' - E)).
  { rewrite <- Z.mul_assoc, <- Z.pow_add_r by lia.
    now replace (- e' + (e' - E)) with (- E) by lia. }
  pose proof (round_nearest_even_le M (e' - E) (255 * 2 ^ (- e')) mrs'
                ltac:(lia) ltac:(lia) Hinv' HK) as [HM1 HM1le].
  set (M1 := round_nearest_even (shr_m mrs') (loc_of_shr_record mrs')) in *.
  pose proof (shr_fexp_exact M1 e' HM1) as S2.
  destruct (shr_fexp FloatOps.prec FloatOps.emax M1 e' loc_Exact)
    as [mrs'' e''].
  destruct S2 as [He'' [Hm'' _]].
  pose proof (Hbelow M1 e' HM1 He'0 HM1le) as Hf2.
  assert (He''0 : e'' <= 0) by lia.
  assert (Hpow : 0 < 2 ^ (e'' - e')) by (apply Z.pow_pos_nonneg; lia).
  assert (HM2 : 0 <= shr_m mrs'' /\ shr_m mrs'' <= 255 * 2 ^ (- e'')).
  { rewrite Hm''. split; [apply Z.div_pos; lia|].
    apply Z.div_le_upper_bound; [lia|].
    replace (- e') with (e'' - e' + - e'') in HM1le by lia.
    rewrite Z.pow_add_r in HM1le by lia. lia. }
  destruct (shr_m mrs'') as [|m2|m2]; [now left| |lia].
  right. exists m2, e''.
  replace (e'' <=? FloatOps.emax - FloatOps.prec) with true
    by (symmetry; apply Z.leb_le; change (FloatOps.emax - FloatOps.prec) with 971; lia).
  repeat split; lia.
Qed.
End RoundAux.

(** [round] of a number in [[0, 255]] is a byte. *)
Lemma py_round_byte (x : Q) :
  (0 <= x <= 255)%Q -> 0 <= py_round x <= 255.
Proof.
  intros [Hx0 Hx1].
  pose proof (Qfloor_resp_le _ _ Hx0) as F0.
  pose proof (Qfloor_resp_le _ _ Hx1) as F1.
  change (0 <= Qfloor x) in F0. change (Qfloor x <= 255) in F1.
  unfold py_round.
  destruct (Qcompare (x - inject_Z (Qfloor x)) (1 # 2)) eqn:E.
  - destruct (Z.even (Qfloor x)); [lia|].
    destruct (Z.eq_dec (Qfloor x) 255) as [E255|]; [|lia].
    apply Qeq_alt in E. rewrite E255 in E.
    change (inject_Z 255) with 255%Q in E. lra.
  - lia.
  - destruct (Z.eq_dec (Qfloor x) 255) as [E255|]; [|lia].
    apply Qgt_alt in E. rewrite E255 in E.
    change (inject_Z 255) with 255%Q in E. lra.
Qed.

Section Float64Facts.

Import PrimFloat SpecFloat FloatOps FloatAxioms.

(** A double in [[0, 1]] is a zero or [m * 2^e] with [m <= 2^-e]. *)
Lemma unit_interval_SF (v : float) :
  Float64.in_unit_interval v ->
  (exists s, Prim2SF v = S754_zero s)
  \/ exists m e, Prim2SF v = S754_finite false m e
                 /\ e <= -52 /\ Z.pos m <= 2 ^ (- e).
Proof.
  intros [H0 H1]. rewrite leb_spec in H0, H1.
  pose proof (Prim2SF_valid v) as Hv.
  change (Prim2SF 0) with (S754_zero false) in H0.
  change (Prim2SF 1) with (S754_finite false 4503599627370496 (-52)) in H1.
  destruct (Prim2SF v) as [s|s| |s m e].
  - left. now exists s.
  - destruct s; discriminate.
  - discriminate.
  - right. exists m, e. unfold SFleb in H0, H1. cbn [SFcompare] in H0, H1.
    destruct s; [discriminate|]. split; [reflexivity|].
    cbn [valid_binary] in Hv. unfold bounded, canonical_mantissa in Hv.
    apply andb_true_iff in Hv. destruct Hv as [Hc _].
    apply Z.eqb_eq in Hc. change (fexp prec emax) with (fun k => Z.max (k - 53) (-1074)) in Hc.
    cbv beta in Hc.
    pose proof (pos_lt_pow_digits m) as Hd.
    destruct (Z.compare_spec e (-52)) as [He|He|He]; [| |discriminate].
    + subst e. split; [lia|].
      rewrite Pos.compare_cont_spec in H1. cbn [Pos.switch_Eq] in H1.
      change (2 ^ (- -52)) with (Z.pos 4503599627370496).
      apply Pos2Z.pos_le_pos. unfold Pos.le. intros Hgt.
      rewrite Hgt in H1. discriminate H1.
    + split; [lia|].
      assert (Z.pos (digits2_pos m) <= 53) by lia.
      assert (2 ^ Z.pos (digits2_pos m) <= 2 ^ (- e))
        by (apply Z.pow_le_mono_r; lia).
      lia.
Qed.

(** The double product of a channel in [[0, 1]] and 255 is a zero or a
    positive double not above 255. *)
Lemma mul_255_SF (v : float) :
  Float64.in_unit_interval v ->
  (exists s, Prim2SF (v * 255)%float = S754_zero s)
  \/ exists m e, Prim2SF (v * 255)%float = S754_finite false m e
                 /\ e <= 0 /\ Z.pos m <= 255 * 2 ^ (- e).
Proof.
  intros Hv. rewrite mul_spec. unfold SF64mul.
  change (Prim2SF 255) with (S754_finite false 8972014882652160 (-45)).
  destruct (unit_interval_SF v Hv) as [[s ->]|(m & e & -> & He & Hm)].
  - left. now exists (xorb s false).
  - cbn [SFmul xorb].
    destruct (binary_round_aux_le_255 (Z.pos (m * 8972014882652160)) (e + -45))
      as [->|(m2 & e2 & -> & He2 & Hm2)].
    + lia.
    + lia.
    + rewrite Pos2Z.inj_mul.
      replace (- (e + -45)) with (- e + 45) by lia.
      rewrite Z.pow_add_r by lia.
      change (Z.pos 8972014882652160) with (255 * 2 ^ 45).
      assert (0 < 2 ^ 45) by reflexivity. nia.
    + left. now exists false.
    + right. now exists m2, e2.
Qed.

(** For a channel in [[0, 1]], [round(value * 255)] returns, and the double
    product stands for a number in [[0, 255]]. *)
Lemma round_mul_255 (v : float) :
  Float64.in_unit_interval v ->
  Float64.round (v * 255)%float
  = Float64.Ok (py_round (Float64.value (v * 255)%float))
  /\ (0 <= Float64.value (v * 255)%float <= 255)%Q.
Proof.
  intros Hv. unfold Float64.round, Float64.value.
  destruct (mul_255_SF v Hv) as [[s ->]|(m & e & -> & He & Hm)].
  - split; [reflexivity|]. cbn. split; discriminate.
  - split; [reflexivity|]. cbn [Float64.SF_value].
    destruct (e <? 0) eqn:Eneg.
    + assert (Hp : 0 < 2 ^ (- e)) by (apply Z.pow_pos_nonneg; lia).
      unfold Qle. cbn [Qnum Qden]. rewrite Z2Pos.id by exact Hp.
      split; lia.
    + apply Z.ltb_ge in Eneg. assert (e = 0) by lia. subst e.
      change (2 ^ (- 0)) with 1 in Hm. change (2 ^ 0) with 1.
      rewrite Z.mul_1_r. change 0%Q with (inject_Z 0).
      change 255%Q with (inject_Z 255). rewrite <- !Zle_Qle. lia.
Qed.

Lemma color_to_hex_loop_float (color : list float) :
  Forall Float64.in_unit_interval color ->
  forall acc : string,
  exists s,
    Float64.color_to_hex_loop color acc = Float64.Ok s
    /\ upper s
       = (upper acc
          ++ fold_right
               (fun v rest =>
                  two_hex_digits (py_round (Float64.value (v * 255)%float))
                  ++ rest) "" color)%string.
Proof.
  induction 1 as [|v color Hv _ IH]; intros acc;
    cbn [Float64.color_to_hex_loop fold_right].
  - exists acc. split; [reflexivity|].
    clear. induction acc as [|c acc IH]; simpl; [|rewrite <- IH]; reflexivity.
  - destruct (round_mul_255 v Hv) as [-> Hr].
    destruct (IH (acc ++ (if (String.length
                                 (from_2 (hex (py_round
                                    (Float64.value (v * 255)%float)))) <? 2)%nat
                          then "0" ++ from_2 (hex (py_round
                                    (Float64.value (v * 255)%float)))
                          else from_2 (hex (py_round
                                    (Float64.value (v * 255)%float)))))%string)
      as (s & Es & Hs).
    exists s. split; [exact Es|].
    rewrite Hs, upper_app, string_app_assoc.
    now rewrite (byte_label _ (py_round_byte _ Hr)).
Qed.

(** C8: for every colour whose channels are doubles in [[0, 1]],
    [color_to_hex] returns ["#"] followed, for every channel, by the two
    uppercase hexadecimal digits of the double product [channel * 255]
    rounded to a nearest integer, which is a byte; [(1.0, 0.0, 0.0)] gives
    ["#FF0000"] and [(0.0, 0.0, 0.0)] gives ["#000000"].  The channel
    [1.5 / 255], whose product with 255 is the double 1.5, gives [02]. *)
Theorem color_to_hex_on_doubles :
  (forall color : list float,
      Forall Float64.in_unit_interval color ->
      Float64.color_to_hex color
      = Float64.Ok (Float64.spec_hex_label color)
      /\ Forall (fun v =>
                   0 <= py_round (Float64.value (v * 255)%float) <= 255)
           color)
  /\ (forall x : Q, (- (1 # 2) <= x - inject_Z (py_round x) <= 1 # 2)%Q)
  /\ Float64.color_to_hex [1; 0; 0]%float = Float64.Ok "#FF0000"%string
  /\ Float64.color_to_hex [0; 0; 0]%float = Float64.Ok "#000000"%string
  /\ Float64.color_to_hex [1.5 / 255; 0; 0]%float
     = Float64.Ok "#020000"%string.
Proof.
  split; [|split; [exact py_round_nearest|]].
  - intros color Hc. split.
    + unfold Float64.color_to_hex, Float64.spec_hex_label.
      destruct (color_to_hex_loop_float color Hc "#"%string) as (s & -> & ->).
      reflexivity.
    + induction Hc as [|v color Hv _ IH]; constructor; [|exact IH].
      apply py_round_byte, (round_mul_255 v Hv).
  - repeat split; vm_compute; reflexivity.
Qed.

Lemma color_to_hex_on_doubles_witness :
  Float64.color_to_hex [0.5; 1; 0.25]%float = Float64.Ok "#80FF40"%string.
Proof.
  assert (Hc : Forall Float64.in_unit_interval [0.5; 1; 0.25]%float)
    by (repeat constructor).
  rewrite (proj1 (proj1 color_to_hex_on_doubles [0.5; 1; 0.25]%float Hc)).
  vm_compute. reflexivity.
Defined.

End Float64Facts.
